(** * crimson: actor systems in JavaScript

    A shallow embedding of [src/channel.ts] (the raw channel pair) and of
    [src/index.ts] (addressed Sender / Receiver, Actor, System), with the
    properties of the message routing core.

    JavaScript objects that are mutated and shared (arrays held by the
    [messages] map and by the drain loops, channel receivers, addressed
    senders and receivers) live in a store and are named by their index
    there; an index is only ever obtained from an allocation, and what
    the code does with an index that names no object is left as "no
    effect" (no run reaches it, see [wf]).  The host's timer queue is part
    of the state.  Code supplied by the user of the library (an actor's
    [run], the callbacks given to [Receiver.on]) is a Rocq function that
    returns the calls it makes; it closes over the sender and the receiver
    it was given as the JavaScript closure does.

    Not modelled: exceptions thrown by user code (nothing in the library
    catches them), and user code that calls [mount] or [start] from inside
    a callback; [mount] and [start] between two turns of the host are
    part of every run ([Op]). *)

From stdpp Require Import gmap strings list fin_maps.

Set Default Proof Using "Type".
Set Warnings "-register-all".

(** ** channel.ts *)

Module Channel.

(** [throw Error("cannot subscribe to a receiver more than once.")] *)
Inductive Error : Type := AlreadySubscribed.

(** [class ChannelReceiver<T>]: the two private fields.  [F] is the
    type of the callbacks; [None] is the initial [(_) => { }]. *)
Record ChannelReceiver (F : Type) : Type := mkChannelReceiver {
  subscribed : bool;
  func : option F
}.
Arguments mkChannelReceiver {F} _ _.
Arguments subscribed {F} _.
Arguments func {F} _.

(** The field initialisers of a [new ChannelReceiver<T>()]. *)
Definition new_ChannelReceiver {F : Type} : ChannelReceiver F :=
  mkChannelReceiver false None.

(** [ChannelReceiver.on]: the [subscribed] field is read and nowhere
    written. *)
Definition on {F : Type} (f : F) (r : ChannelReceiver F)
  : Error + ChannelReceiver F :=
  if bool_decide (subscribed r = false)
  then inr (mkChannelReceiver (subscribed r) (Some f))
  else inl AlreadySubscribed.

(** [ChannelReceiver.dispatch]: [this.func(value)].  [call] gives the
    meaning of a callback as a transformer of the state [S]. *)
Definition dispatch {F V S : Type} (call : F → V → S → S)
    (r : ChannelReceiver F) (v : V) (s : S) : S :=
  match func r with
  | Some f => call f v s
  | None => s
  end.

(** [class ChannelSender<T>]: its [func] is the closure
    [(value) => receiver.dispatch(value)], that is, the receiver object
    it was created with (an index in the store of receivers). *)
Record ChannelSender : Type := mkChannelSender { receiver : nat }.

End Channel.

Section Crimson.

(** The message type [T] of [System<T>]. *)
Context {T : Type}.

(** ** index.ts: data *)

(** [interface SystemMessage<T>] *)
Record SystemMessage : Type := mkSystemMessage {
  from : string;
  to : string;
  value : T
}.

(** [class Sender<T>]: [address] and the raw [sender]. *)
Record Sender : Type := mkSender {
  Sender_address : string;
  Sender_sender : Channel.ChannelSender
}.

(** What user code does with the objects it holds: [sender.send(to, v)],
    [receiver.on(f)] and [system.stop()].  Senders and receivers are named
    by their index in the store. *)
Inductive Action : Type :=
  | ASend (sender : nat) (to : string) (v : T)
  | AOn (receiver : nat) (f : string → T → list Action)
  | AStop.

(** A callback [(from, value) => ...] given to [Receiver.on]. *)
Definition Handler : Type := string → T → list Action.

(** [class Receiver<T>]: [address], the raw [receiver], and [func]. *)
Record Receiver : Type := mkReceiver {
  Receiver_address : string;
  Receiver_receiver : nat;
  Receiver_func : Handler
}.

(** [interface Actor<T>]: [run(sender, receiver)]. *)
Record Actor : Type := mkActor { run : nat → nat → list Action }.

(** The callbacks registered on raw channel receivers: the router of
    [start_system] / [start_actors], and the closure of the [Receiver]
    constructor, [(message) => this.func(message.from, message.value)],
    which holds [this]. *)
Inductive RawCallback : Type :=
  | CbRouter
  | CbForward (this : nat).

(** The closures given to [setTimeout].  The continuation of
    [await delay(1)] runs in the turn in which the timer of [delay]
    fires, before any other timer: it is one closure with [resolve]. *)
Inductive Task : Type :=
  (** [() => this.sender.send({from: this.address, to, value})] *)
  | TSubmit (this : Sender) (to : string) (v : T)
  (** the [async () => { ... }] of a drain loop, before it has run *)
  | TLoopStart (address : string) (tx1 : Channel.ChannelSender)
  (** the [resolve] of [delay(1)] with the rest of the loop: [messages]
      is the array the loop holds *)
  | TLoopWake (messages : nat) (tx1 : Channel.ChannelSender).

(** Ghost events, to speak about the calls that were made: a call of
    [run], a call of [Sender.send] (with the envelope it will submit), a
    call of the callback of an addressed receiver (with the envelope that
    is unwrapped for it).  The source has no such log. *)
Inductive Event : Type :=
  | ERun (address : string) (actor : Actor) (sender receiver : nat)
  | ESend (m : SystemMessage)
  | EDeliver (receiver : nat) (m : SystemMessage).

(** The [System<T>] instance with the store and the host's timers. *)
Record State : Type := mkState {
  (* fields of System<T> *)
  address : string;
  messages : gmap string nat;
  actors : list (string * Actor);
  started : bool;
  (* the store *)
  arrays : list (list SystemMessage);
  channels : list (Channel.ChannelReceiver RawCallback);
  senders : list Sender;
  receivers : list Receiver;
  (* the host: pending timers as (delay, closure), oldest first *)
  timers : list (nat * Task);
  (* ghost *)
  trace : list Event
}.

Definition set_messages (x : gmap string nat) (st : State) : State :=
  mkState (address st) x (actors st) (started st) (arrays st) (channels st)
          (senders st) (receivers st) (timers st) (trace st).
Definition set_actors (x : list (string * Actor)) (st : State) : State :=
  mkState (address st) (messages st) x (started st) (arrays st) (channels st)
          (senders st) (receivers st) (timers st) (trace st).
Definition set_started (x : bool) (st : State) : State :=
  mkState (address st) (messages st) (actors st) x (arrays st) (channels st)
          (senders st) (receivers st) (timers st) (trace st).
Definition set_arrays (x : list (list SystemMessage)) (st : State) : State :=
  mkState (address st) (messages st) (actors st) (started st) x (channels st)
          (senders st) (receivers st) (timers st) (trace st).
Definition set_channels (x : list (Channel.ChannelReceiver RawCallback))
    (st : State) : State :=
  mkState (address st) (messages st) (actors st) (started st) (arrays st) x
          (senders st) (receivers st) (timers st) (trace st).
Definition set_senders (x : list Sender) (st : State) : State :=
  mkState (address st) (messages st) (actors st) (started st) (arrays st)
          (channels st) x (receivers st) (timers st) (trace st).
Definition set_receivers (x : list Receiver) (st : State) : State :=
  mkState (address st) (messages st) (actors st) (started st) (arrays st)
          (channels st) (senders st) x (timers st) (trace st).
Definition set_timers (x : list (nat * Task)) (st : State) : State :=
  mkState (address st) (messages st) (actors st) (started st) (arrays st)
          (channels st) (senders st) (receivers st) x (trace st).
Definition set_trace (x : list Event) (st : State) : State :=
  mkState (address st) (messages st) (actors st) (started st) (arrays st)
          (channels st) (senders st) (receivers st) (timers st) x.

(** ** The host *)

(** [setTimeout(closure, ms)].  Every timer of this program has the same
    delay ([wf_delay]), so the host fires them in the order of their
    creation: the queue is first in, first out. *)
Definition setTimeout (closure : Task) (ms : nat) (st : State) : State :=
  set_timers (timers st ++ [(ms, closure)]) st.

Definition log (e : Event) (st : State) : State :=
  set_trace (trace st ++ [e]) st.

(** ** index.ts: Sender, Receiver, stop *)

(** [Sender.send(to, value)]: one [setTimeout(..., 1)]. *)
Definition Sender_send (sender : nat) (to : string) (v : T) (st : State)
  : State :=
  match senders st !! sender with
  | Some this =>
      setTimeout (TSubmit this to v) 1
        (log (ESend (mkSystemMessage (Sender_address this) to v)) st)
  | None => st
  end.

(** [Receiver.on(func)]: [this.func = func]. *)
Definition Receiver_on_obj (f : Handler) (this : Receiver) : Receiver :=
  mkReceiver (Receiver_address this) (Receiver_receiver this) f.

Definition Receiver_on (receiver : nat) (f : Handler) (st : State) : State :=
  set_receivers (alter (Receiver_on_obj f) receiver (receivers st)) st.

(** [System.stop()]: [this.started = false]. *)
Definition stop (st : State) : State := set_started false st.

Definition exec_action (a : Action) (st : State) : State :=
  match a with
  | ASend sender to v => Sender_send sender to v st
  | AOn receiver f => Receiver_on receiver f st
  | AStop => stop st
  end.

(** The calls of a piece of user code, in order. *)
Definition exec_actions (l : list Action) (st : State) : State :=
  foldl (λ s a, exec_action a s) st l.

(** ** The store of raw channels *)

(** [channel<T>()]: a new receiver, and the sender that dispatches to it. *)
Definition channel (st : State) : State * (Channel.ChannelSender * nat) :=
  let receiver := length (channels st) in
  (set_channels (channels st ++ [Channel.new_ChannelReceiver]) st,
   (Channel.mkChannelSender receiver, receiver)).

(** [rx.on(func)] on the receiver object [rx] of the store. *)
Definition ChannelReceiver_on (rx : nat) (f : RawCallback) (st : State)
  : Channel.Error + State :=
  match channels st !! rx with
  | Some r =>
      match Channel.on f r with
      | inr r' => inr (set_channels (<[rx := r']> (channels st)) st)
      | inl e => inl e
      end
  | None => inr st
  end.

(** ** index.ts: the router and the delivery *)

(** The handler subscribed on [rx0]:
    [if (this.messages.has(message.to)) this.messages.get(message.to).push(message)] *)
Definition router (message : SystemMessage) (st : State) : State :=
  match messages st !! to message with
  | Some arr => set_arrays (alter (λ l, l ++ [message]) arr (arrays st)) st
  | None => st
  end.

(** The closure of the [Receiver] constructor:
    [(message) => this.func(message.from, message.value)]. *)
Definition forward (this : nat) (message : SystemMessage) (st : State)
  : State :=
  match receivers st !! this with
  | Some r =>
      exec_actions (Receiver_func r (from message) (value message))
                   (log (EDeliver this message) st)
  | None => st
  end.

Definition call (f : RawCallback) (message : SystemMessage) (st : State)
  : State :=
  match f with
  | CbRouter => router message st
  | CbForward this => forward this message st
  end.

(** [ChannelSender.send(value)]: [this.func(value)], which is
    [receiver.dispatch(value)]. *)
Definition ChannelSender_send (tx : Channel.ChannelSender)
    (message : SystemMessage) (st : State) : State :=
  match channels st !! Channel.receiver tx with
  | Some r => Channel.dispatch call r message st
  | None => st
  end.

(** ** index.ts: the drain loop *)

(** [while (messages.length > 0) { tx1.send(messages.shift()) }]: the
    array is read again at every turn, after the callback has run. *)
Fixpoint drain (fuel : nat) (arr : nat) (tx1 : Channel.ChannelSender)
    (st : State) : option State :=
  match fuel with
  | 0 => None
  | S fuel' =>
      match arrays st !! arr with
      | Some (m :: rest) =>
          drain fuel' arr tx1
            (ChannelSender_send tx1 m (set_arrays (<[arr := rest]> (arrays st)) st))
      | _ => Some st
      end
  end.

(** [while (this.started) { await delay(1) ...]: the test at the head of
    the outer loop, and the timer of [delay(1)] when it holds. *)
Definition loop_head (arr : nat) (tx1 : Channel.ChannelSender) (st : State)
  : State :=
  if started st then setTimeout (TLoopWake arr tx1) 1 st else st.

(** The length of the array [arr] (0 when there is no such array). *)
Definition array_length (arr : nat) (st : State) : nat :=
  length (default [] (arrays st !! arr)).

(** One closure of the timer queue runs to its end or to its next
    [await].  A callback cannot enqueue in the array that is drained (a
    send goes through a timer), so the length of the array on entry
    bounds the inner loop ([run_ops_total]).  [messages.get(address)] of
    a drain loop always finds the array ([wf_loop_start]). *)
Definition fire (t : Task) (st : State) : option State :=
  match t with
  | TSubmit this to v =>
      Some (ChannelSender_send (Sender_sender this)
              (mkSystemMessage (Sender_address this) to v) st)
  | TLoopStart a tx1 =>
      match messages st !! a with
      | Some arr => Some (loop_head arr tx1 st)
      | None => Some st
      end
  | TLoopWake arr tx1 =>
      match drain (S (array_length arr st)) arr tx1 st with
      | Some st' => Some (loop_head arr tx1 st')
      | None => None
      end
  end.

(** The host runs the oldest timer. *)
Definition tick (st : State) : option State :=
  match timers st with
  | [] => Some st
  | (_, t) :: rest => fire t (set_timers rest st)
  end.

(** ** index.ts: System *)

(** [Map.set] on a map that is iterated in insertion order. *)
Fixpoint Map_set {V : Type} (k : string) (v : V) (m : list (string * V))
  : list (string * V) :=
  match m with
  | [] => [(k, v)]
  | (k', v') :: m' =>
      if bool_decide (k = k') then (k, v) :: m' else (k', v') :: Map_set k v m'
  end.

(** [new System(address)] *)
Definition System_new (address : string) : State :=
  mkState address {[ address := 0 ]} [] false [ [] ] [] [] [] [] [].

(** [System.mount(address, actor)] *)
Definition mount (a : string) (actor : Actor) (st : State) : State :=
  let st := set_actors (Map_set a actor (actors st)) st in
  let arr := length (arrays st) in
  set_messages (<[a := arr]> (messages st)) (set_arrays (arrays st ++ [ [] ]) st).

(** [new Sender(address, tx0)] *)
Definition new_Sender (a : string) (tx : Channel.ChannelSender) (st : State)
  : State * nat :=
  (set_senders (senders st ++ [mkSender a tx]) st, length (senders st)).

(** [new Receiver(address, rx1)]: the field initialiser of [func], then
    [this.receiver.on(...)]. *)
Definition new_Receiver (a : string) (rx : nat) (st : State)
  : Channel.Error + (State * nat) :=
  let this := length (receivers st) in
  let st := set_receivers (receivers st ++ [mkReceiver a rx (λ _ _, [])]) st in
  match ChannelReceiver_on rx (CbForward this) st with
  | inr st => inr (st, this)
  | inl e => inl e
  end.

(** The body of the [for] loop of [start_actors]. *)
Definition start_actor (a : string) (actor : Actor) (st : State)
  : Channel.Error + State :=
  let '(st, (tx0, rx0)) := channel st in
  let '(st, (tx1, rx1)) := channel st in
  match ChannelReceiver_on rx0 CbRouter st with
  | inl e => inl e
  | inr st =>
      let '(st, sender) := new_Sender a tx0 st in
      match new_Receiver a rx1 st with
      | inl e => inl e
      | inr (st, receiver) =>
          let st := exec_actions (run actor sender receiver)
                      (log (ERun a actor sender receiver) st) in
          inr (setTimeout (TLoopStart a tx1) 1 st)
      end
  end.

(** [start_actors()], over [this.actors.keys()]. *)
Fixpoint start_actors_from (l : list (string * Actor)) (st : State)
  : Channel.Error + State :=
  match l with
  | [] => inr st
  | (a, actor) :: l' =>
      match start_actor a actor st with
      | inl e => inl e
      | inr st => start_actors_from l' st
      end
  end.

Definition start_actors (st : State) : Channel.Error + State :=
  start_actors_from (actors st) st.

(** [start_system()] *)
Definition start_system (st : State) : Channel.Error + (State * (nat * nat)) :=
  let '(st, (tx0, rx0)) := channel st in
  let '(st, (tx1, rx1)) := channel st in
  match ChannelReceiver_on rx0 CbRouter st with
  | inl e => inl e
  | inr st =>
      let st := setTimeout (TLoopStart (address st) tx1) 1 st in
      let '(st, sender) := new_Sender (address st) tx0 st in
      match new_Receiver (address st) rx1 st with
      | inl e => inl e
      | inr (st, receiver) => inr (st, (sender, receiver))
      end
  end.

(** [System.start()] *)
Definition start (st : State) : Channel.Error + (State * (nat * nat)) :=
  let st := set_started true st in
  match start_actors st with
  | inl e => inl e
  | inr st => start_system st
  end.

(** ** Runs *)

(** What happens to a system: calls of its methods by the program that
    owns it, calls made by user code, and turns of the host's timers. *)
Inductive Op : Type :=
  | OMount (a : string) (actor : Actor)
  | OStart
  | OCall (act : Action)
  | OTick.

Definition apply_op (o : Op) (st : State) : option State :=
  match o with
  | OMount a actor => Some (mount a actor st)
  | OStart => match start st with inr (st', _) => Some st' | inl _ => None end
  | OCall act => Some (exec_action act st)
  | OTick => tick st
  end.

Fixpoint run_ops (ops : list Op) (st : State) : option State :=
  match ops with
  | [] => Some st
  | o :: ops' =>
      match apply_op o st with
      | Some st' => run_ops ops' st'
      | None => None
      end
  end.


(** ** Observations *)

(** The mailbox of an address: the array its entry of [messages] holds. *)
Definition mailbox (a : string) (st : State) : option (list SystemMessage) :=
  match messages st !! a with
  | Some arr => arrays st !! arr
  | None => None
  end.

(** A state of a run from [new System(address)]. *)
Definition reachable (st : State) : Prop :=
  ∃ (a0 : string) (ops : list Op), run_ops ops (System_new a0) = Some st.

(** The calls of [run], in order: address, actor, and the pair passed. *)
Definition run_log (tr : list Event) : list (string * Actor * (nat * nat)) :=
  omap (λ e, match e with
             | ERun a actor s r => Some (a, actor, (s, r))
             | _ => None
             end) tr.

(** The envelopes handed to callbacks of addressed receivers, in order. *)
Definition deliveries (tr : list Event) : list (nat * SystemMessage) :=
  omap (λ e, match e with
             | EDeliver r m => Some (r, m)
             | _ => None
             end) tr.

(** The raw channel [c] is subscribed by the router. *)
Definition is_router (c : nat) (st : State) : Prop :=
  ∃ r, channels st !! c = Some r ∧ Channel.func r = Some CbRouter.

(** The raw channel [c] is subscribed by the addressed receiver [rid]. *)
Definition forwards_to (c rid : nat) (st : State) : Prop :=
  ∃ r, channels st !! c = Some r ∧ Channel.func r = Some (CbForward rid).

(** The inbound channel of a drain loop. *)
Definition loop_chan (t : Task) : option nat :=
  match t with
  | TLoopStart _ tx1 | TLoopWake _ tx1 => Some (Channel.receiver tx1)
  | TSubmit _ _ _ => None
  end.

Definition is_start (o : Op) : bool :=
  match o with OStart => true | _ => false end.


(** ** Orders of envelopes *)

(** The envelopes given to [Sender.send], in the order of the calls. *)
Definition sends (tr : list Event) : list SystemMessage :=
  omap (λ e, match e with ESend m => Some m | _ => None end) tr.

(** The envelopes handed to the callback of the receiver [rid]. *)
Definition delivered_to (rid : nat) (tr : list Event) : list SystemMessage :=
  omap (λ e, match e with
             | EDeliver r m => if decide (r = rid) then Some m else None
             | _ => None
             end) tr.

(** The envelopes of the pending [Sender.send] timers. *)
Definition submits (tms : list (nat * Task)) : list SystemMessage :=
  omap (λ x, match x.2 with
             | TSubmit this to v => Some (mkSystemMessage (Sender_address this) to v)
             | _ => None
             end) tms.

(** The content of the array [arr]. *)
Definition content (arr : nat) (st : State) : list SystemMessage :=
  default [] (arrays st !! arr).

(** The envelopes from the address [a] to the address [b]. *)
Definition between (a b : string) (m : SystemMessage) : Prop :=
  from m = a ∧ to m = b.

#[global] Instance between_dec a b m : Decision (between a b m).
Proof. unfold between. apply _. Defined.

(** ** Invariants of runs *)

(** The closures that are pending, with those in [extra] that the host
    has taken off its queue and is running. *)
Definition tasks (extra : list Task) (st : State) : list Task :=
  (timers st).*2 ++ extra.

Record wf (extra : list Task) (st : State) : Prop := mk_wf {
  wf_map_valid : ∀ a arr, messages st !! a = Some arr → arr < length (arrays st);
  wf_map_inj : ∀ a a' arr,
    messages st !! a = Some arr → messages st !! a' = Some arr → a = a';
  wf_own : is_Some (messages st !! address st);
  wf_actors : ∀ a, a ∈ (actors st).*1 → is_Some (messages st !! a);
  wf_senders : ∀ s this, senders st !! s = Some this →
    is_router (Channel.receiver (Sender_sender this)) st;
  wf_submit : ∀ ms this dest v, (ms, TSubmit this dest v) ∈ timers st →
    is_router (Channel.receiver (Sender_sender this)) st;
  wf_loops : ∀ t c, t ∈ tasks extra st → loop_chan t = Some c →
    ∃ rid, forwards_to c rid st;
  wf_forward : ∀ c rid, forwards_to c rid st → rid < length (receivers st);
  wf_forward_inj : ∀ c c' rid,
    forwards_to c rid st → forwards_to c' rid st → c = c';
  wf_loops_nodup : NoDup (omap loop_chan (tasks extra st));
  wf_loop_start : ∀ a tx1, TLoopStart a tx1 ∈ tasks extra st →
    is_Some (messages st !! a);
  wf_loop_wake : ∀ arr tx1, TLoopWake arr tx1 ∈ tasks extra st →
    arr < length (arrays st);
  wf_delay : ∀ ms t, (ms, t) ∈ timers st → ms = 1
}.

Record ordered (extra : list Task) (st : State) : Prop := mk_ordered {
  ord_array : ∀ arr,
    content arr st ++ submits (timers st) `sublist_of` sends (trace st);
  ord_wake : ∀ arr tx1 rid,
    TLoopWake arr tx1 ∈ tasks extra st →
    forwards_to (Channel.receiver tx1) rid st →
    delivered_to rid (trace st) ++ content arr st ++ submits (timers st)
      `sublist_of` sends (trace st);
  ord_any : ∀ rid, delivered_to rid (trace st) `sublist_of` sends (trace st);
  ord_start : ∀ a tx1 rid,
    TLoopStart a tx1 ∈ tasks extra st →
    forwards_to (Channel.receiver tx1) rid st →
    delivered_to rid (trace st) = [];
  ord_fresh : ∀ rid, length (receivers st) ≤ rid →
    delivered_to rid (trace st) = []
}.

(** What a piece of user code can do to the state: create [Sender.send]
    timers (each with its [ESend] event), replace callbacks of addressed
    receivers, and clear [started]. *)
Record user_step (st st' : State) : Prop := mk_user_step {
  us_address : address st' = address st;
  us_messages : messages st' = messages st;
  us_actors : actors st' = actors st;
  us_arrays : arrays st' = arrays st;
  us_channels : channels st' = channels st;
  us_senders : senders st' = senders st;
  us_receivers : length (receivers st') = length (receivers st);
  us_receiver_objs :
    (λ r, (Receiver_address r, Receiver_receiver r)) <$> receivers st' =
    (λ r, (Receiver_address r, Receiver_receiver r)) <$> receivers st;
  us_started : started st' = true → started st = true;
  us_timers : ∃ new,
    timers st' = timers st ++ new ∧
    trace st' = trace st ++ (ESend <$> submits new) ∧
    Forall (λ x, x.1 = 1 ∧ ∃ s this dest v,
                   x.2 = TSubmit this dest v ∧ senders st !! s = Some this) new
}.

(** The objects that [start_actors] and [start_system] create for one
    address: the two raw channels with their subscriptions, the addressed
    Sender on the first and the addressed Receiver on the second. *)
Definition wire (a : string) (st : State) : State :=
  let c := length (channels st) in
  set_receivers (receivers st ++ [mkReceiver a (S c) (λ _ _, [])])
    (set_senders (senders st ++ [mkSender a (Channel.mkChannelSender c)])
       (set_channels
          (channels st ++
             [Channel.mkChannelReceiver false (Some CbRouter);
              Channel.mkChannelReceiver false (Some (CbForward (length (receivers st))))])
          st)).

(** No call of [run] and no rise of [started] between [st] and [st']. *)
Definition calm (st st' : State) : Prop :=
  run_log (trace st') = run_log (trace st) ∧
  (started st' = true → started st = true).

(** The sender [s] and the receiver [r] of the store are bound to the
    address [a] and wired: the sender to the router, the receiver to a
    raw channel that forwards to it. *)
Definition bound (a : string) (s r : nat) (st : State) : Prop :=
  (∃ this, senders st !! s = Some this ∧ Sender_address this = a ∧
           is_router (Channel.receiver (Sender_sender this)) st) ∧
  (∃ this, receivers st !! r = Some this ∧ Receiver_address this = a ∧
           forwards_to (Receiver_receiver this) r st).

(** The store of [st'] has the objects of the store of [st], with the
    same wiring. *)
Definition extends (st st' : State) : Prop :=
  senders st `prefix_of` senders st' ∧
  channels st `prefix_of` channels st' ∧
  ((λ r, (Receiver_address r, Receiver_receiver r)) <$> receivers st)
    `prefix_of` ((λ r, (Receiver_address r, Receiver_receiver r)) <$> receivers st').

(** No pending closure belongs to the drain loop of the raw channel [c]. *)
Definition no_loop (c : nat) (st : State) : Prop :=
  ∀ t, t ∈ (timers st).*2 → loop_chan t ≠ Some c.

(** The fields of the System that only [mount] writes. *)
Definition same_system (st st' : State) : Prop :=
  address st' = address st ∧ messages st' = messages st ∧
  actors st' = actors st.

(** Where the envelopes are: handed to a callback, in an array, or in
    the pending timer of their [Sender.send]. *)
Definition ledger (st : State) : list SystemMessage :=
  (deliveries (trace st)).*2 ++ concat (arrays st) ++ submits (timers st).

(** Every addressed sender, and so the [from] of every envelope that was
    sent, names an address that has an entry in [messages]. *)
Record replyable (st : State) : Prop := mk_replyable {
  rp_senders : ∀ s this, senders st !! s = Some this →
    is_Some (messages st !! Sender_address this);
  rp_sends : ∀ m, m ∈ sends (trace st) → is_Some (messages st !! from m)
}.

(** Envelopes are where their [to] says: in the mailbox of that address,
    in the array of a drain loop whose receiver is bound to it, or handed
    to the callback of such a receiver. *)
Record routed (extra : list Task) (st : State) : Prop := mk_routed {
  rt_map : ∀ a arr m,
    messages st !! a = Some arr → m ∈ content arr st → to m = a;
  rt_wake : ∀ arr tx1 rid this,
    TLoopWake arr tx1 ∈ tasks extra st →
    forwards_to (Channel.receiver tx1) rid st →
    receivers st !! rid = Some this →
    (∀ m, m ∈ content arr st → to m = Receiver_address this) ∧
    (∀ a, messages st !! a = Some arr → a = Receiver_address this);
  rt_start : ∀ a tx1 rid this,
    TLoopStart a tx1 ∈ tasks extra st →
    forwards_to (Channel.receiver tx1) rid st →
    receivers st !! rid = Some this →
    Receiver_address this = a;
  rt_delivered : ∀ rid m this,
    (rid, m) ∈ deliveries (trace st) →
    receivers st !! rid = Some this →
    to m = Receiver_address this
}.

(** ** Calls of callbacks and of [run], in the words of the specification *)


(** From [st] to [st'], for each entry of [l] in turn: a Sender and a
    Receiver that the store did not have are made and bound to the
    address of the entry, [run] of the actor of the entry is called with
    them, once, and the calls it makes are made; then the timer of the
    drain loop of the address is set. *)
Fixpoint runs_each_once (l : list (string * Actor)) (st st' : State) : Prop :=
  match l with
  | [] => st' = st
  | (a, actor) :: l' =>
      ∃ s r tx1,
        senders st !! s = None ∧ receivers st !! r = None ∧
        bound a s r (wire a st) ∧
        forwards_to (Channel.receiver tx1) r (wire a st) ∧
        runs_each_once l'
          (setTimeout (TLoopStart a tx1) 1
             (exec_actions (run actor s r) (log (ERun a actor s r) (wire a st))))
          st'
  end.


(** ** Regular runs *)




End Crimson.

Arguments SystemMessage : clear implicits.
Arguments Action : clear implicits.
Arguments Handler : clear implicits.
Arguments Receiver : clear implicits.
Arguments Actor : clear implicits.
Arguments State : clear implicits.
Arguments Op : clear implicits.
Arguments Event : clear implicits.
Arguments Task : clear implicits.

Arguments Sender : clear implicits.

(** ** spec/index.ts: the actors of the echo test, and a few runs *)

Module Spec.

(** [receiver.on((from, value) => sender.send("B", value))] *)
Definition A : Actor string :=
  mkActor (λ sender receiver,
    [AOn receiver (λ from value, [ASend sender "B" value])]).

Definition B : Actor string :=
  mkActor (λ sender receiver,
    [AOn receiver (λ from value, [ASend sender "C" value])]).

Definition C : Actor string :=
  mkActor (λ sender receiver,
    [AOn receiver (λ from value, [ASend sender "System" value])]).

(** [new System("System")], the three [mount], and [start()].  The pair
    that [start()] returns is the sender 3 and the receiver 3. *)
Definition setup : list (Op string) :=
  [OMount "A" A; OMount "B" B; OMount "C" C; OStart].

(** [sender.send("A", "echo-test")], then
    [receiver.on((from, value) => { system.stop() ... })]. *)
Definition echo : list (Op string) :=
  setup ++ [OCall (ASend 3 "A" "echo-test"); OCall (AOn 3 (λ from value, [AStop]))].

Definition state_of (ops : list (Op string)) : State string :=
  default (System_new "System") (run_ops ops (System_new "System")).

(** After [start()]. *)
Definition started_system : State string := state_of setup.

(** The envelope for "A" is in its mailbox and the timer of the drain
    loop of "A" is the next to fire. *)
Definition before_wake : State string := state_of (echo ++ replicate 5 OTick).

(** An actor that sends to itself in [run]. *)
Definition Selfish : Actor string :=
  mkActor (λ sender receiver, [ASend sender "S" "hello"]).

(** [mount("S", ...)], [start()], [stop()] in one turn; then the timer
    of the send fires. *)
Definition stopped_early : State string :=
  state_of [OMount "S" Selfish; OStart; OCall AStop; OTick].

(** "A" sends 1, 2, 3 to "B" in [run]; "B" only listens. *)
Definition Counter : Actor string :=
  mkActor (λ sender receiver,
    [ASend sender "B" "1"; ASend sender "B" "2"; ASend sender "B" "3"]).

Definition Sink : Actor string := mkActor (λ sender receiver, []).

Definition one_two_three : State string :=
  state_of ([OMount "A" Counter; OMount "B" Sink; OStart] ++ replicate 8 OTick).

(** The timer of the send of the echo test is the next to fire. *)
Definition before_submit : State string := state_of (echo ++ replicate 4 OTick).


(** [mount("B", Counter)], [mount("B", Sink)], [start()]. *)
Definition replaced : State string :=
  state_of [OMount "B" Counter; OMount "B" Sink; OStart].

(** One actor at two addresses. *)
Definition twice : State string :=
  state_of [OMount "X" Counter; OMount "Y" Counter; OStart].


End Spec.
(** * Properties *)

Section Properties.

Context {T : Type}.
Implicit Types (st : State T) (m : SystemMessage T) (a b : string).

(** ** Setters and the store *)

Lemma lookup_snoc_length {A : Type} (l : list A) (x : A) :
  (l ++ [x]) !! length l = Some x.
Proof. rewrite lookup_app_r, Nat.sub_diag; [done | lia]. Qed.

Lemma channel_eq st :
  channel st =
    (set_channels (channels st ++ [Channel.new_ChannelReceiver]) st,
     (Channel.mkChannelSender (length (channels st)), length (channels st))).
Proof. reflexivity. Qed.

(** On the receiver of a fresh channel, [on] meets [subscribed = false]. *)
Lemma ChannelReceiver_on_fresh st rx f :
  channels st !! rx = Some Channel.new_ChannelReceiver →
  ChannelReceiver_on rx f st =
    inr (set_channels (<[rx := Channel.mkChannelReceiver false (Some f)]> (channels st)) st).
Proof. intros H. unfold ChannelReceiver_on. rewrite H. reflexivity. Qed.

(** ** The raw channel: subscription *)

(** C1 (the code at the failing input): on the receiver of a fresh
    [channel()], a first [on(f)] and then a second [on(g)] both return
    without an error, and the second replaces the callback of the first:
    the [subscribed] flag is still [false]. *)
Theorem ChannelReceiver_on_twice_no_error st (f g : RawCallback) :
  let '(st0, (tx, rx)) := channel st in
  ∃ st1 st2,
    ChannelReceiver_on rx f st0 = inr st1 ∧
    channels st1 !! rx = Some (Channel.mkChannelReceiver false (Some f)) ∧
    ChannelReceiver_on rx g st1 = inr st2 ∧
    channels st2 !! rx = Some (Channel.mkChannelReceiver false (Some g)).
Proof.
  rewrite channel_eq.
  set (c := length (channels st)).
  eexists _, _. split.
  { apply ChannelReceiver_on_fresh. simpl. apply lookup_snoc_length. }
  assert (Hlt : c < length (channels st ++ [@Channel.new_ChannelReceiver RawCallback])).
  { rewrite length_app. simpl. unfold c. lia. }
  split.
  { simpl. by apply list_lookup_insert_eq. }
  unfold ChannelReceiver_on at 1. simpl.
  rewrite list_lookup_insert_eq by done. simpl. split; [reflexivity|].
  simpl. apply list_lookup_insert_eq. by rewrite length_insert.
Qed.

(** ** Sender.send *)

(** C3: [send(to, value)] on a Sender bound to [a] only creates one timer
    of delay 1; the closure of that timer submits exactly the envelope
    [{from: a, to, value}] to the raw sender; nothing is delivered or
    enqueued during the call, and the call has no error case. *)
Theorem Sender_send_deferred st (s : nat) (this : Sender) (dest : string) (v : T) :
  senders st !! s = Some this →
  let st' := Sender_send s dest v st in
  let envelope := mkSystemMessage (Sender_address this) dest v in
  timers st' = timers st ++ [(1, TSubmit this dest v)] ∧
  (∀ st0, fire (TSubmit this dest v) st0 =
            Some (ChannelSender_send (Sender_sender this) envelope st0)) ∧
  trace st' = trace st ++ [ESend envelope] ∧
  deliveries (trace st') = deliveries (trace st) ∧
  arrays st' = arrays st ∧ messages st' = messages st ∧
  receivers st' = receivers st ∧ channels st' = channels st ∧
  senders st' = senders st ∧ actors st' = actors st ∧
  started st' = started st ∧ address st' = address st.
Proof.
  intros Hs. unfold Sender_send. rewrite Hs. simpl.
  repeat split; try reflexivity.
  unfold deliveries. rewrite omap_app. simpl. by rewrite app_nil_r.
Qed.

(** ** System.stop *)

(** C9: [stop()] sets [started] to [false] and leaves every other part of
    the state as it was: the registry, the [messages] map, the arrays
    (so every mailbox), the address, and also the store and the timers. *)
Theorem stop_frame st :
  started (stop st) = false ∧
  actors (stop st) = actors st ∧
  messages (stop st) = messages st ∧
  arrays (stop st) = arrays st ∧
  (∀ a, mailbox a (stop st) = mailbox a st) ∧
  address (stop st) = address st ∧
  channels (stop st) = channels st ∧
  senders (stop st) = senders st ∧
  receivers (stop st) = receivers st ∧
  timers (stop st) = timers st ∧
  trace (stop st) = trace st.
Proof. repeat split. Qed.


(** ** What user code can do *)

Lemma sends_app (tr1 tr2 : list (Event T)) :
  sends (tr1 ++ tr2) = sends tr1 ++ sends tr2.
Proof. apply omap_app. Qed.

Lemma delivered_to_app rid (tr1 tr2 : list (Event T)) :
  delivered_to rid (tr1 ++ tr2) = delivered_to rid tr1 ++ delivered_to rid tr2.
Proof. apply omap_app. Qed.

Lemma deliveries_app (tr1 tr2 : list (Event T)) :
  deliveries (tr1 ++ tr2) = deliveries tr1 ++ deliveries tr2.
Proof. apply omap_app. Qed.

Lemma run_log_app (tr1 tr2 : list (Event T)) :
  run_log (tr1 ++ tr2) = run_log tr1 ++ run_log tr2.
Proof. apply omap_app. Qed.

Lemma submits_app (l1 l2 : list (nat * Task T)) :
  submits (l1 ++ l2) = submits l1 ++ submits l2.
Proof. apply omap_app. Qed.

Lemma sends_ESend (l : list (SystemMessage T)) : sends (ESend <$> l) = l.
Proof. induction l as [|x l IH]; simpl; [done | by f_equal]. Qed.

Lemma delivered_to_ESend rid (l : list (SystemMessage T)) :
  delivered_to rid (ESend <$> l) = [].
Proof. induction l; simpl; done. Qed.

Lemma deliveries_ESend (l : list (SystemMessage T)) :
  deliveries (ESend <$> l) = [].
Proof. induction l; simpl; done. Qed.

Lemma run_log_ESend (l : list (SystemMessage T)) : run_log (ESend <$> l) = [].
Proof. induction l; simpl; done. Qed.

Lemma user_step_refl st : user_step st st.
Proof.
  split; try done. exists []. rewrite !app_nil_r. by repeat split.
Qed.

Lemma user_step_trans st1 st2 st3 :
  user_step st1 st2 → user_step st2 st3 → user_step st1 st3.
Proof.
  intros [? ? ? ? ? Hs1 ? ? ? (n1 & Ht1 & Htr1 & Hf1)]
         [? ? ? ? ? Hs2 ? ? ? (n2 & Ht2 & Htr2 & Hf2)].
  split; try congruence; [tauto|].
  exists (n1 ++ n2). split; [|split].
  - rewrite Ht2, Ht1. by rewrite app_assoc.
  - rewrite Htr2, Htr1, submits_app, fmap_app. by rewrite app_assoc.
  - apply Forall_app. split; [done|]. rewrite Hs1 in Hf2. done.
Qed.

Lemma exec_action_user_step (act : Action T) st :
  user_step st (exec_action act st).
Proof.
  destruct act as [s dest v | r f |]; simpl.
  - unfold Sender_send. destruct (senders st !! s) as [this|] eqn:Hs;
      [|apply user_step_refl].
    split; try done.
    exists [(1, TSubmit this dest v)]. simpl. repeat split; try done.
    constructor; [|constructor]. split; [done|]. by exists s, this, dest, v.
  - split; try done.
    + simpl. apply length_alter.
    + simpl. apply list_eq. intros i. rewrite !list_lookup_fmap, list_lookup_alter.
      case_decide; [subst i|done]. by destruct (receivers st !! r).
    + exists []. simpl. rewrite !app_nil_r. by repeat split.
  - split; try done. exists []. simpl. rewrite !app_nil_r. by repeat split.
Qed.

Lemma exec_actions_user_step (l : list (Action T)) st :
  user_step st (exec_actions l st).
Proof.
  revert st. induction l as [|act l IH]; intros st; simpl.
  - apply user_step_refl.
  - eapply user_step_trans; [apply exec_action_user_step | apply IH].
Qed.

Lemma user_step_is_router st st' c :
  user_step st st' → is_router c st' ↔ is_router c st.
Proof. intros H. unfold is_router. by rewrite (us_channels _ _ H). Qed.

Lemma user_step_forwards_to st st' c rid :
  user_step st st' → forwards_to c rid st' ↔ forwards_to c rid st.
Proof. intros H. unfold forwards_to. by rewrite (us_channels _ _ H). Qed.

Lemma user_step_content st st' arr :
  user_step st st' → content arr st' = content arr st.
Proof. intros H. unfold content. by rewrite (us_arrays _ _ H). Qed.

Lemma user_step_new_tasks st st' :
  user_step st st' →
  ∃ new, timers st' = timers st ++ new ∧
         trace st' = trace st ++ (ESend <$> submits new) ∧
         (∀ t, t ∈ new.*2 → loop_chan t = None) ∧
         (∀ ms t, (ms, t) ∈ new → ms = 1 ∧ ∃ s this dest v,
            t = TSubmit this dest v ∧ senders st !! s = Some this).
Proof.
  intros [_ _ _ _ _ _ _ _ _ (new & Ht & Htr & Hf)].
  exists new. repeat split; try done.
  - intros t (x & -> & Hx)%list_elem_of_fmap.
    rewrite Forall_forall in Hf. destruct (Hf _ Hx) as (_ & ? & ? & ? & ? & -> & _).
    done.
  - rewrite Forall_forall in Hf. by destruct (Hf _ H).
  - rewrite Forall_forall in Hf. by destruct (Hf _ H).
Qed.

Lemma omap_loop_chan_nil (l : list (Task T)) :
  (∀ t, t ∈ l → loop_chan t = None) → omap loop_chan l = [].
Proof.
  induction l as [|t l IH]; intros H; [done|]. simpl.
  rewrite (H t) by left. apply IH. intros t' Ht'. apply H. by right.
Qed.

Lemma user_step_loop_chans extra st st' :
  user_step st st' →
  omap loop_chan (tasks extra st') = omap loop_chan (tasks extra st).
Proof.
  intros (new & Ht & _ & Hn & _)%user_step_new_tasks.
  unfold tasks. rewrite Ht, fmap_app, !omap_app.
  rewrite (omap_loop_chan_nil new.*2) by done. by rewrite app_nil_r.
Qed.

Lemma user_step_loop_task extra st st' (t : Task T) :
  user_step st st' → t ∈ tasks extra st' → loop_chan t ≠ None →
  t ∈ tasks extra st.
Proof.
  intros (new & Ht & _ & Hn & _)%user_step_new_tasks.
  unfold tasks. rewrite Ht, fmap_app, !elem_of_app.
  intros [[?|Hin]|?] Hl; auto. by apply Hn in Hin.
Qed.

Lemma user_step_wf extra st st' :
  user_step st st' → wf extra st → wf extra st'.
Proof.
  intros Hu Hwf.
  destruct (user_step_new_tasks _ _ Hu) as (new & Ht & Htr & Hn & Hnew).
  pose proof (us_messages _ _ Hu) as Hm. pose proof (us_arrays _ _ Hu) as Ha.
  split.
  - rewrite Hm, Ha. apply Hwf.
  - rewrite Hm. apply Hwf.
  - rewrite Hm, (us_address _ _ Hu). apply Hwf.
  - rewrite Hm, (us_actors _ _ Hu). apply Hwf.
  - intros s this. rewrite (us_senders _ _ Hu), user_step_is_router by done.
    apply Hwf.
  - intros ms this dest v. rewrite Ht, elem_of_app, user_step_is_router by done.
    intros [Hin|Hin]; [by eapply wf_submit|].
    destruct (Hnew _ _ Hin) as (_ & s & this' & ? & ? & [= <- <- <-] & Hs).
    by eapply wf_senders.
  - intros t c Hin Hc.
    assert (t ∈ tasks extra st) as Hin' by (eapply user_step_loop_task; [done..|congruence]).
    destruct (wf_loops _ _ Hwf t c Hin' Hc) as [rid Hf]. exists rid.
    by apply (user_step_forwards_to st st').
  - intros c rid. rewrite user_step_forwards_to, (us_receivers _ _ Hu) by done.
    apply Hwf.
  - intros c c' rid. rewrite !(user_step_forwards_to st st') by done. apply Hwf.
  - rewrite (user_step_loop_chans extra st st') by done. apply Hwf.
  - intros a tx1 Hin. rewrite Hm. eapply wf_loop_start; [done|].
    eapply user_step_loop_task; done.
  - intros arr tx1 Hin. rewrite Ha. eapply wf_loop_wake; [done|].
    eapply user_step_loop_task; done.
  - intros ms t. rewrite Ht, elem_of_app. intros [Hin|Hin]; [by eapply wf_delay|].
    by destruct (Hnew _ _ Hin).
Qed.

Lemma user_step_ordered extra st st' :
  user_step st st' → ordered extra st → ordered extra st'.
Proof.
  intros Hu Ho.
  destruct (user_step_new_tasks _ _ Hu) as (new & Ht & Htr & Hn & Hnew).
  assert (Hs : sends (trace st') = sends (trace st) ++ submits new).
  { by rewrite Htr, sends_app, sends_ESend. }
  assert (Hd : ∀ rid, delivered_to rid (trace st') = delivered_to rid (trace st)).
  { intros rid. by rewrite Htr, delivered_to_app, delivered_to_ESend, app_nil_r. }
  assert (Hp : submits (timers st') = submits (timers st) ++ submits new).
  { by rewrite Ht, submits_app. }
  split.
  - intros arr. rewrite Hs, Hp, (user_step_content st st'), app_assoc by done.
    apply sublist_app; [apply Ho | done].
  - intros arr tx1 rid Hin Hf.
    rewrite Hs, Hp, Hd, (user_step_content st st'), !app_assoc by done.
    apply sublist_app; [|done]. rewrite <- app_assoc.
    eapply ord_wake; [done| |by apply (user_step_forwards_to st st')].
    eapply user_step_loop_task; done.
  - intros rid. rewrite Hs, Hd. apply sublist_inserts_r, Ho.
  - intros a tx1 rid Hin Hf. rewrite Hd.
    eapply ord_start; [done| |by apply (user_step_forwards_to st st')].
    eapply user_step_loop_task; done.
  - intros rid. rewrite Hd, (us_receivers _ _ Hu). apply Ho.
Qed.

(** ** Raw channels that are wired *)

Lemma ChannelSender_send_router st tx m :
  is_router (Channel.receiver tx) st → ChannelSender_send tx m st = router m st.
Proof.
  intros (r & Hr & Hf). unfold ChannelSender_send, Channel.dispatch.
  by rewrite Hr, Hf.
Qed.

Lemma ChannelSender_send_forward st tx rid m :
  forwards_to (Channel.receiver tx) rid st →
  ChannelSender_send tx m st = forward rid m st.
Proof.
  intros (r & Hr & Hf). unfold ChannelSender_send, Channel.dispatch.
  by rewrite Hr, Hf.
Qed.


Lemma forwards_to_not_router st c rid :
  forwards_to c rid st → ¬ is_router c st.
Proof. intros (r & Hr & Hf) (r' & Hr' & Hf'). congruence. Qed.

(** ** Changes of the timer queue *)

Lemma wf_change_tasks extra extra' st tms' :
  wf extra st →
  (∀ x, x ∈ tms' → x ∈ timers st ∨ (x.1 = 1 ∧ is_Some (loop_chan x.2))) →
  (∀ t, t ∈ tasks extra' (set_timers tms' st) → is_Some (loop_chan t) →
        t ∈ tasks extra st) →
  NoDup (omap loop_chan (tasks extra' (set_timers tms' st))) →
  wf extra' (set_timers tms' st).
Proof.
  intros Hwf Hold Hloop Hnd. split; simpl; try apply Hwf; try done.
  - intros ms this dest v Hin. destruct (Hold _ Hin) as [Hin'|[_ [c Hc]]].
    + by eapply (wf_submit _ _ Hwf).
    + by simpl in Hc.
  - intros t c Hin Hc. apply (wf_loops _ _ Hwf t c); [|done].
    apply Hloop; [done|]. by rewrite Hc.
  - intros a tx1 Hin. apply (wf_loop_start _ _ Hwf a tx1). by apply Hloop.
  - intros arr tx1 Hin. apply (wf_loop_wake _ _ Hwf arr tx1). by apply Hloop.
  - intros ms t Hin. destruct (Hold _ Hin) as [Hin'|[Hms _]]; [|done].
    by apply (wf_delay _ _ Hwf ms t).
Qed.

Lemma ordered_change_tasks extra extra' st tms' :
  ordered extra st →
  submits tms' = submits (timers st) →
  (∀ t, t ∈ tasks extra' (set_timers tms' st) → is_Some (loop_chan t) →
        t ∈ tasks extra st) →
  ordered extra' (set_timers tms' st).
Proof.
  intros Ho Hs Hloop. split; simpl; try rewrite Hs; try apply Ho.
  - intros arr tx1 rid Hin Hf. apply (ord_wake _ _ Ho arr tx1 rid); [|done].
    by apply Hloop.
  - intros a tx1 rid Hin Hf. apply (ord_start _ _ Ho a tx1 rid); [|done].
    by apply Hloop.
Qed.

Lemma tasks_pop extra st ms (t : Task T) rest :
  timers st = (ms, t) :: rest →
  tasks (t :: extra) (set_timers rest st) ≡ₚ tasks extra st.
Proof.
  intros Ht. unfold tasks. rewrite Ht. simpl.
  by rewrite <- Permutation_middle.
Qed.

Lemma tasks_push extra st (t : Task T) :
  tasks extra (setTimeout t 1 st) ≡ₚ tasks (t :: extra) st.
Proof.
  unfold tasks, setTimeout. simpl. rewrite fmap_app. simpl.
  by rewrite <- app_assoc.
Qed.

(** The host takes the oldest timer off its queue. *)
Lemma wf_pop extra st ms t rest :
  timers st = (ms, t) :: rest → wf extra st → wf (t :: extra) (set_timers rest st).
Proof.
  intros Ht Hwf. apply (wf_change_tasks extra); [done|..].
  - intros x Hx. left. rewrite Ht. by right.
  - intros t' Hin _. by rewrite <- (tasks_pop extra st ms t rest).
  - rewrite (tasks_pop extra st ms t rest) by done. apply Hwf.
Qed.

Lemma ordered_pop extra st ms t rest :
  timers st = (ms, t) :: rest → is_Some (loop_chan t) →
  ordered extra st → ordered (t :: extra) (set_timers rest st).
Proof.
  intros Ht Hl Ho. apply (ordered_change_tasks extra); [done|..].
  - rewrite Ht. unfold submits. simpl. destruct t; simpl; try done.
    by destruct Hl.
  - intros t' Hin _. by rewrite <- (tasks_pop extra st ms t rest).
Qed.

(** A drain loop sets the timer of its next cycle. *)
Lemma wf_push extra st t :
  is_Some (loop_chan t) → wf (t :: extra) st → wf extra (setTimeout t 1 st).
Proof.
  intros Hl Hwf. apply (wf_change_tasks (t :: extra)); [done|..].
  - intros x [Hx| ->%list_elem_of_singleton]%elem_of_app; [by left | by right].
  - intros t' Hin _. by rewrite <- (tasks_push extra st t).
  - fold (setTimeout t 1 st). rewrite (tasks_push extra st t). apply Hwf.
Qed.

Lemma ordered_push extra st t :
  is_Some (loop_chan t) → ordered (t :: extra) st →
  ordered extra (setTimeout t 1 st).
Proof.
  intros Hl Ho. apply (ordered_change_tasks (t :: extra)); [done|..].
  - rewrite submits_app. destruct t; simpl; try by rewrite app_nil_r.
    by destruct Hl.
  - intros t' Hin _. by rewrite <- (tasks_push extra st t).
Qed.

(** A drain loop ends. *)
Lemma wf_drop extra st t : wf (t :: extra) st → wf extra st.
Proof.
  intros Hwf.
  assert (Hst : set_timers (timers st) st = st) by by destruct st.
  rewrite <- Hst. apply (wf_change_tasks (t :: extra)); [done|..].
  - intros x Hx. by left.
  - rewrite Hst. unfold tasks. intros t'. rewrite !elem_of_app, elem_of_cons.
    tauto.
  - rewrite Hst. pose proof (wf_loops_nodup _ _ Hwf) as Hnd.
    unfold tasks in *. rewrite omap_app in *. simpl in Hnd.
    apply NoDup_app in Hnd as (H1 & H2 & H3). apply NoDup_app.
    destruct (loop_chan t); [|done].
    apply NoDup_cons in H3 as [H3 H4]. split; [done|]. split; [|done].
    intros x Hx Hx'. apply (H2 x Hx). by right.
Qed.

Lemma ordered_drop extra st t : ordered (t :: extra) st → ordered extra st.
Proof.
  intros Ho.
  assert (Hst : set_timers (timers st) st = st) by by destruct st.
  rewrite <- Hst. apply (ordered_change_tasks (t :: extra)); [done..|].
  rewrite Hst. unfold tasks. intros t'. rewrite !elem_of_app, elem_of_cons.
  tauto.
Qed.

(** ** The loop starts: [const messages = this.messages.get(address)] *)

Lemma wf_loop_begin extra st a tx1 arr :
  messages st !! a = Some arr →
  wf (TLoopStart a tx1 :: extra) st → wf (TLoopWake arr tx1 :: extra) st.
Proof.
  intros Ha Hwf.
  assert (Hin : ∀ t, t ∈ tasks (TLoopWake arr tx1 :: extra) st →
                     t = TLoopWake arr tx1 ∨ t ∈ tasks extra st).
  { intros t. unfold tasks. rewrite !elem_of_app, elem_of_cons. tauto. }
  assert (Hsub : ∀ t, t ∈ tasks extra st → t ∈ tasks (TLoopStart a tx1 :: extra) st).
  { intros t. unfold tasks. rewrite !elem_of_app, elem_of_cons. tauto. }
  assert (Hhd : TLoopStart a tx1 ∈ tasks (TLoopStart a tx1 :: extra) st).
  { unfold tasks. rewrite elem_of_app, elem_of_cons. tauto. }
  split; try apply Hwf.
  - intros t c [->|Ht]%Hin Hc.
    + by apply (wf_loops _ _ Hwf (TLoopStart a tx1) c).
    + apply (wf_loops _ _ Hwf t c); auto.
  - pose proof (wf_loops_nodup _ _ Hwf) as Hnd.
    unfold tasks in *. rewrite omap_app in *. done.
  - intros a' tx' [?|Ht]%Hin; [done|].
    apply (wf_loop_start _ _ Hwf a' tx'); auto.
  - intros arr' tx' [[= -> ->]|Ht]%Hin.
    + by apply (wf_map_valid _ _ Hwf a).
    + apply (wf_loop_wake _ _ Hwf arr' tx'); auto.
Qed.

Lemma ordered_loop_begin extra st a tx1 arr :
  wf (TLoopStart a tx1 :: extra) st →
  ordered (TLoopStart a tx1 :: extra) st → ordered (TLoopWake arr tx1 :: extra) st.
Proof.
  intros Hwf Ho.
  assert (Hin : ∀ t, t ∈ tasks (TLoopWake arr tx1 :: extra) st →
                     t = TLoopWake arr tx1 ∨ t ∈ tasks extra st).
  { intros t. unfold tasks. rewrite !elem_of_app, elem_of_cons. tauto. }
  assert (Hsub : ∀ t, t ∈ tasks extra st → t ∈ tasks (TLoopStart a tx1 :: extra) st).
  { intros t. unfold tasks. rewrite !elem_of_app, elem_of_cons. tauto. }
  assert (Hhd : TLoopStart a tx1 ∈ tasks (TLoopStart a tx1 :: extra) st).
  { unfold tasks. rewrite elem_of_app, elem_of_cons. tauto. }
  split; try apply Ho.
  - intros arr' tx' rid [[= -> ->]|Ht]%Hin Hf.
    + rewrite (ord_start _ _ Ho a tx1 rid Hhd Hf). simpl. apply Ho.
    + apply (ord_wake _ _ Ho arr' tx' rid); auto.
  - intros a' tx' rid [?|Ht]%Hin Hf; [done|].
    apply (ord_start _ _ Ho a' tx' rid); auto.
Qed.

(** ** The router *)

Lemma content_router st m arr :
  content arr (router m st) = content arr st ∨
  content arr (router m st) = content arr st ++ [m].
Proof.
  unfold router, content. destruct (messages st !! to m) as [arr'|]; [|by left].
  simpl. destruct (decide (arr' = arr)) as [->|Hne].
  - rewrite list_lookup_alter_eq. destruct (arrays st !! arr); [by right | by left].
  - rewrite list_lookup_alter_ne by done. by left.
Qed.

Lemma router_wf extra st m : wf extra st → wf extra (router m st).
Proof.
  intros Hwf. unfold router. destruct (messages st !! to m) as [arr|]; [|done].
  split; simpl; try rewrite length_alter; apply Hwf.
Qed.

(** The timer of a [Sender.send] fires: the envelope leaves the queue of
    timers for an array, or is dropped. *)
Lemma router_ordered extra st ms this dest v rest :
  timers st = (ms, TSubmit this dest v) :: rest →
  ordered extra st →
  ordered extra
    (router (mkSystemMessage (Sender_address this) dest v) (set_timers rest st)).
Proof.
  intros Ht Ho. set (m := mkSystemMessage (Sender_address this) dest v).
  set (st0 := set_timers rest st).
  assert (Hsub : submits (timers st) = m :: submits rest) by by rewrite Ht.
  assert (Htasks : ∀ t, t ∈ tasks extra (router m st0) → t ∈ tasks extra st).
  { intros t. assert (timers (router m st0) = rest) as Hr.
    { unfold router. by destruct (messages st0 !! to m). }
    unfold tasks. rewrite Hr, Ht, !elem_of_app. simpl. rewrite elem_of_cons. tauto. }
  assert (Hfw : ∀ c rid, forwards_to c rid (router m st0) → forwards_to c rid st).
  { intros c rid. unfold forwards_to, router. by destruct (messages st0 !! to m). }
  assert (Htr : trace (router m st0) = trace st).
  { unfold router. by destruct (messages st0 !! to m). }
  assert (Htm : timers (router m st0) = rest).
  { unfold router. by destruct (messages st0 !! to m). }
  assert (Hrc : length (receivers (router m st0)) = length (receivers st)).
  { unfold router. by destruct (messages st0 !! to m). }
  assert (Hc : ∀ arr, content arr (router m st0) ++ submits rest
                        `sublist_of` content arr st ++ submits (timers st)).
  { intros arr. rewrite Hsub.
    destruct (content_router st0 m arr) as [-> | ->].
    - apply sublist_app; [done|]. by apply sublist_cons.
    - by rewrite <- app_assoc. }
  split.
  - intros arr. rewrite Htr, Htm. etrans; [apply Hc | apply Ho].
  - intros arr tx1 rid Hin Hf. rewrite Htr, Htm.
    etrans; [apply sublist_app; [reflexivity | apply Hc]|].
    apply (ord_wake _ _ Ho arr tx1 rid); auto.
  - intros rid. rewrite Htr. apply Ho.
  - intros a tx1 rid Hin Hf. rewrite Htr. apply (ord_start _ _ Ho a tx1 rid); auto.
  - intros rid. rewrite Htr, Hrc. apply Ho.
Qed.

(** ** One turn of the inner loop: [tx1.send(messages.shift())] *)

Lemma NoDup_omap_eq {A B : Type} (f : A → option B) (l : list A) x y c :
  NoDup (omap f l) → x ∈ l → y ∈ l → f x = Some c → f y = Some c → x = y.
Proof.
  induction l as [|z l IH]; intros Hnd Hx Hy Hfx Hfy; [by apply elem_of_nil in Hx|].
  simpl in Hnd. apply elem_of_cons in Hx, Hy.
  destruct (f z) as [d|] eqn:Hz.
  - apply NoDup_cons in Hnd as [Hd Hnd].
    destruct Hx as [->|Hx], Hy as [->|Hy]; [done| | |by apply IH].
    + exfalso. apply Hd. apply list_elem_of_omap. exists y. split; [done|].
      congruence.
    + exfalso. apply Hd. apply list_elem_of_omap. exists x. split; [done|].
      congruence.
  - destruct Hx as [->|Hx]; [congruence|]. destruct Hy as [->|Hy]; [congruence|].
    by apply IH.
Qed.

Lemma shift_wf extra st arr l e :
  wf extra st → wf extra (log e (set_arrays (<[arr := l]> (arrays st)) st)).
Proof.
  intros Hwf. split; simpl; try rewrite length_insert; apply Hwf.
Qed.

Lemma shift_ordered extra st arr tx1 rid m rest :
  wf extra st → ordered extra st →
  TLoopWake arr tx1 ∈ tasks extra st →
  forwards_to (Channel.receiver tx1) rid st →
  arrays st !! arr = Some (m :: rest) →
  ordered extra (log (EDeliver rid m) (set_arrays (<[arr := rest]> (arrays st)) st)).
Proof.
  intros Hwf Ho Hin Hf Harr.
  set (st1 := log (EDeliver rid m) (set_arrays (<[arr := rest]> (arrays st)) st)).
  assert (Hlt : arr < length (arrays st)) by by eapply lookup_lt_Some.
  assert (Hcarr : content arr st = m :: rest) by (unfold content; by rewrite Harr).
  assert (Hcarr1 : content arr st1 = rest).
  { unfold content. simpl. by rewrite list_lookup_insert_eq. }
  assert (Hcne : ∀ arr', arr' ≠ arr → content arr' st1 = content arr' st).
  { intros arr' Hne. unfold content. simpl. by rewrite list_lookup_insert_ne. }
  assert (Hcsub : ∀ arr', content arr' st1 `sublist_of` content arr' st).
  { intros arr'. destruct (decide (arr' = arr)) as [->|Hne].
    - rewrite Hcarr, Hcarr1. by apply sublist_cons.
    - by rewrite Hcne. }
  assert (Hs : sends (trace st1) = sends (trace st)).
  { simpl. by rewrite sends_app, app_nil_r. }
  assert (Hd : delivered_to rid (trace st1) = delivered_to rid (trace st) ++ [m]).
  { simpl. rewrite delivered_to_app. simpl. by rewrite decide_True. }
  assert (Hdne : ∀ rid', rid' ≠ rid →
            delivered_to rid' (trace st1) = delivered_to rid' (trace st)).
  { intros rid' Hne. simpl. rewrite delivered_to_app. simpl.
    rewrite decide_False by done. by rewrite app_nil_r. }
  assert (Hsame : ∀ t c, t ∈ tasks extra st → loop_chan t = Some c →
            forwards_to c rid st → t = TLoopWake arr tx1).
  { intros t c Ht Hc Hfc.
    assert (c = Channel.receiver tx1) as -> by by eapply (wf_forward_inj _ _ Hwf).
    by eapply (NoDup_omap_eq loop_chan); [apply Hwf| | | |]. }
  assert (Hmine : delivered_to rid (trace st) ++ [m] ++ rest ++ submits (timers st)
                    `sublist_of` sends (trace st)).
  { pose proof (ord_wake _ _ Ho arr tx1 rid Hin Hf) as H. by rewrite Hcarr in H. }
  split.
  - intros arr'. rewrite Hs. etrans; [|apply (ord_array _ _ Ho arr')].
    apply sublist_app; [apply Hcsub | done].
  - intros arr' tx' rid' Hin' Hf'. rewrite Hs. change (timers st1) with (timers st).
    destruct (decide (rid' = rid)) as [->|Hne].
    + assert (@TLoopWake T arr' tx' = TLoopWake arr tx1) as [= -> ->].
      { by apply (Hsame _ (Channel.receiver tx')). }
      rewrite Hd, Hcarr1, <- app_assoc. done.
    + rewrite Hdne by done. etrans; [|apply (ord_wake _ _ Ho arr' tx' rid'); done].
      apply sublist_app; [done|]. apply sublist_app; [apply Hcsub | done].
  - intros rid'. rewrite Hs. destruct (decide (rid' = rid)) as [->|Hne].
    + rewrite Hd. etrans; [|apply Hmine]. rewrite app_assoc.
      by apply sublist_inserts_r.
    + rewrite Hdne by done. apply Ho.
  - intros a tx' rid' Hin' Hf'. destruct (decide (rid' = rid)) as [->|Hne].
    + by specialize (Hsame _ (Channel.receiver tx') Hin' eq_refl Hf').
    + rewrite Hdne by done. by apply (ord_start _ _ Ho a tx' rid').
  - intros rid' Hge. rewrite Hdne; [by apply Ho|].
    pose proof (wf_forward _ _ Hwf _ _ Hf). simpl in Hge. lia.
Qed.


Lemma drain_inv extra arr tx1 fuel st st' :
  TLoopWake arr tx1 ∈ extra →
  wf extra st → ordered extra st →
  drain fuel arr tx1 st = Some st' →
  wf extra st' ∧ ordered extra st'.
Proof.
  intros Hex. revert st. induction fuel as [|fuel IH]; intros st Hwf Ho; [done|].
  simpl. destruct (arrays st !! arr) as [[|m rest]|] eqn:Harr;
    try (intros [= <-]; done).
  assert (Hin : TLoopWake arr tx1 ∈ tasks extra st).
  { unfold tasks. apply elem_of_app. by right. }
  destruct (wf_loops _ _ Hwf _ _ Hin eq_refl) as [rid Hf].
  set (st0 := set_arrays (<[arr := rest]> (arrays st)) st).
  assert (Hf0 : forwards_to (Channel.receiver tx1) rid st0) by done.
  rewrite (ChannelSender_send_forward st0 tx1 rid m Hf0).
  assert (Hlt : rid < length (receivers st0)) by by apply (wf_forward _ _ Hwf _ _ Hf).
  apply lookup_lt_is_Some in Hlt as [r Hr].
  unfold forward. rewrite Hr. apply IH.
  - eapply user_step_wf; [apply exec_actions_user_step|]. by apply shift_wf.
  - eapply user_step_ordered; [apply exec_actions_user_step|].
    by eapply shift_ordered.
Qed.

(** ** The inner loop as a whole *)

(** With enough fuel, the inner loop of a drain loop hands every envelope
    of its array to the callback of its receiver, oldest first, each one
    once, and leaves the array empty; the callbacks that run in between
    are user code. *)
Lemma drain_forward arr tx1 rid l : ∀ st fuel,
  arrays st !! arr = Some l →
  forwards_to (Channel.receiver tx1) rid st →
  rid < length (receivers st) →
  length l < fuel →
  ∃ st', drain fuel arr tx1 st = Some st' ∧
         arrays st' = <[arr := []]> (arrays st) ∧
         deliveries (trace st') = deliveries (trace st) ++ ((λ m, (rid, m)) <$> l) ∧
         run_log (trace st') = run_log (trace st) ∧
         messages st' = messages st ∧ channels st' = channels st ∧
         actors st' = actors st ∧ address st' = address st ∧
         senders st' = senders st ∧
         length (receivers st') = length (receivers st) ∧
         (started st' = true → started st = true) ∧
         (∃ new, timers st' = timers st ++ new ∧
                 ∀ t, t ∈ new.*2 → loop_chan t = None).
Proof.
  induction l as [|m rest IH]; intros st fuel Harr Hf Hlt Hfuel.
  - destruct fuel as [|fuel]; [simpl in Hfuel; lia|]. simpl. rewrite Harr.
    exists st. rewrite app_nil_r. repeat split; try done.
    + symmetry. by apply list_insert_id.
    + exists []. rewrite app_nil_r. split; [done|].
      intros t Ht. by apply elem_of_nil in Ht.
  - destruct fuel as [|fuel]; [simpl in Hfuel; lia|]. simpl. rewrite Harr.
    set (st0 := set_arrays (<[arr := rest]> (arrays st)) st).
    assert (Hf0 : forwards_to (Channel.receiver tx1) rid st0) by done.
    rewrite (ChannelSender_send_forward st0 tx1 rid m Hf0).
    destruct (lookup_lt_is_Some_2 _ _ Hlt) as [r Hr].
    unfold forward. change (receivers st0) with (receivers st). rewrite Hr.
    set (st1 := log (EDeliver rid m) st0).
    set (st2 := exec_actions (Receiver_func r (from m) (value m)) st1).
    pose proof (exec_actions_user_step (Receiver_func r (from m) (value m)) st1) as Hu.
    fold st2 in Hu.
    destruct (user_step_new_tasks _ _ Hu) as (new & Ht & Htr & Hnl & _).
    assert (Halt : arr < length (arrays st)) by by eapply lookup_lt_Some.
    destruct (IH st2 fuel)
      as (st' & Hd & Ha & Hdl & Hrl & Hm & Hc & Hac & Had & Hsn & Hrc & Hst & new' & Ht' & Hnl').
    + rewrite (us_arrays _ _ Hu). simpl. by apply list_lookup_insert_eq.
    + by apply (user_step_forwards_to st1 st2).
    + by rewrite (us_receivers _ _ Hu).
    + simpl in Hfuel. lia.
    + exists st'. split; [done|]. split; [|split; [|split]].
      * rewrite Ha, (us_arrays _ _ Hu). simpl. by rewrite list_insert_insert_eq.
      * rewrite Hdl, Htr, deliveries_app, deliveries_ESend, app_nil_r. simpl.
        rewrite deliveries_app. simpl. by rewrite <- app_assoc.
      * rewrite Hrl, Htr, run_log_app, run_log_ESend, app_nil_r. simpl.
        rewrite run_log_app. simpl. by rewrite app_nil_r.
      * rewrite Hm, Hc, Hac, Had, Hsn, Hrc.
        rewrite (us_messages _ _ Hu), (us_channels _ _ Hu), (us_actors _ _ Hu),
          (us_address _ _ Hu), (us_senders _ _ Hu), (us_receivers _ _ Hu).
        repeat split; try done; [intros H; by apply (us_started _ _ Hu), Hst|].
        exists (new ++ new'). rewrite Ht', Ht. simpl. rewrite app_assoc.
        split; [done|]. intros t. rewrite fmap_app, elem_of_app. intros [?|?]; auto.
Qed.

(** ** One turn of the host *)

Lemma loop_head_inv st arr tx1 :
  wf [TLoopWake arr tx1] st → ordered [TLoopWake arr tx1] st →
  wf [] (loop_head arr tx1 st) ∧ ordered [] (loop_head arr tx1 st).
Proof.
  intros Hwf Ho. unfold loop_head. destruct (started st).
  - split; [by apply wf_push | by apply ordered_push].
  - split; [by eapply wf_drop | by eapply ordered_drop].
Qed.

Lemma fire_inv st ms t rest :
  timers st = (ms, t) :: rest →
  wf [] st → ordered [] st →
  ∃ st', fire t (set_timers rest st) = Some st' ∧ wf [] st' ∧ ordered [] st'.
Proof.
  intros Ht Hwf Ho. set (st0 := set_timers rest st).
  pose proof (wf_pop [] st ms t rest Ht Hwf) as Hwf0. fold st0 in Hwf0.
  destruct t as [this dest v | a tx1 | arr tx1]; unfold fire.
  - eexists. split; [done|].
    assert (Hr : is_router (Channel.receiver (Sender_sender this)) st0).
    { apply (wf_submit _ _ Hwf ms this dest v). rewrite Ht. by left. }
    rewrite (ChannelSender_send_router _ _ _ Hr). split.
    + apply router_wf. by eapply wf_drop.
    + by eapply router_ordered.
  - pose proof (ordered_pop [] st ms _ rest Ht (mk_is_Some _ _ eq_refl) Ho) as Ho0.
    fold st0 in Ho0.
    change (messages st0) with (messages st).
    destruct (messages st !! a) as [arr|] eqn:Ha.
    + eexists. split; [done|]. apply loop_head_inv.
      * by apply (wf_loop_begin [] st0 a tx1 arr).
      * by apply (ordered_loop_begin [] st0 a tx1 arr).
    + eexists. split; [done|]. split; [by eapply wf_drop | by eapply ordered_drop].
  - pose proof (ordered_pop [] st ms _ rest Ht (mk_is_Some _ _ eq_refl) Ho) as Ho0.
    fold st0 in Ho0.
    assert (Hin : TLoopWake arr tx1 ∈ tasks [TLoopWake arr tx1] st0).
    { unfold tasks. apply elem_of_app. right. by left. }
    destruct (wf_loops _ _ Hwf0 _ _ Hin eq_refl) as [rid Hf].
    pose proof (wf_loop_wake _ _ Hwf0 _ _ Hin) as Hlt.
    apply lookup_lt_is_Some in Hlt as [l Hl].
    destruct (drain_forward arr tx1 rid l st0 (S (array_length arr st0)))
      as (st1 & Hd & _); [done|done|by eapply wf_forward| |].
    { unfold array_length. rewrite Hl. simpl. lia. }
    rewrite Hd. eexists. split; [done|].
    destruct (drain_inv [TLoopWake arr tx1] arr tx1 (S (array_length arr st0)) st0 st1)
      as [Hwf1 Ho1]; [by left|done..|].
    by apply loop_head_inv.
Qed.

Lemma tick_inv st :
  wf [] st → ordered [] st →
  ∃ st', tick st = Some st' ∧ wf [] st' ∧ ordered [] st'.
Proof.
  intros Hwf Ho. unfold tick. destruct (timers st) as [|[ms t] rest] eqn:Ht.
  - by exists st.
  - by eapply fire_inv.
Qed.

(** ** Wiring an address *)

Lemma lookup_snoc2_0 {A : Type} (l : list A) (x y : A) :
  ((l ++ [x]) ++ [y]) !! length l = Some x.
Proof. rewrite lookup_app_l by (rewrite length_app; simpl; lia). apply lookup_snoc_length. Qed.

Lemma lookup_snoc2_1 {A : Type} (l : list A) (x y : A) :
  ((l ++ [x]) ++ [y]) !! S (length l) = Some y.
Proof.
  rewrite lookup_app_r by (rewrite length_app; simpl; lia).
  rewrite length_app. simpl. by replace (S (length l) - (length l + 1)) with 0 by lia.
Qed.

Lemma insert_snoc2_0 {A : Type} (l : list A) (x y z : A) :
  <[length l := z]> ((l ++ [x]) ++ [y]) = (l ++ [z]) ++ [y].
Proof.
  rewrite insert_app_l by (rewrite length_app; simpl; lia).
  rewrite insert_app_r_alt, Nat.sub_diag by lia. done.
Qed.

Lemma insert_snoc2_1 {A : Type} (l : list A) (x y z : A) :
  <[S (length l) := z]> ((l ++ [x]) ++ [y]) = (l ++ [x]) ++ [z].
Proof.
  rewrite insert_app_r_alt by (rewrite length_app; simpl; lia).
  rewrite length_app. simpl. by replace (S (length l) - (length l + 1)) with 0 by lia.
Qed.

Lemma start_actor_eq a actor st :
  start_actor a actor st =
    inr (setTimeout (TLoopStart a (Channel.mkChannelSender (S (length (channels st))))) 1
           (exec_actions (run actor (length (senders st)) (length (receivers st)))
              (log (ERun a actor (length (senders st)) (length (receivers st)))
                 (wire a st)))).
Proof.
  unfold start_actor, channel. simpl. rewrite length_app. simpl.
  replace (length (channels st) + 1) with (S (length (channels st))) by lia.
  unfold ChannelReceiver_on at 1. simpl. rewrite lookup_snoc2_0. simpl.
  unfold new_Receiver, new_Sender. simpl.
  unfold ChannelReceiver_on. simpl. rewrite insert_snoc2_0, lookup_snoc2_1. simpl.
  rewrite insert_snoc2_1. unfold wire. by rewrite <- app_assoc.
Qed.

Lemma start_system_eq st :
  start_system st =
    inr (setTimeout (TLoopStart (address st)
                       (Channel.mkChannelSender (S (length (channels st))))) 1
           (wire (address st) st),
         (length (senders st), length (receivers st))).
Proof.
  unfold start_system, channel. simpl. rewrite length_app. simpl.
  replace (length (channels st) + 1) with (S (length (channels st))) by lia.
  unfold ChannelReceiver_on at 1. simpl. rewrite lookup_snoc2_0. simpl.
  unfold new_Receiver, new_Sender. simpl.
  unfold ChannelReceiver_on. simpl. rewrite insert_snoc2_0, lookup_snoc2_1. simpl.
  rewrite insert_snoc2_1. unfold wire, setTimeout. simpl. by rewrite <- app_assoc.
Qed.

Lemma is_router_wire a st c :
  is_router c (wire a st) ↔ is_router c st ∨ c = length (channels st).
Proof.
  unfold is_router, wire. simpl. split.
  - intros (r & Hr & Hf). apply lookup_app_Some in Hr as [Hr|[Hge Hr]]; [left; eauto|].
    destruct (c - length (channels st)) as [|[|n]] eqn:Hc; simpl in Hr.
    + right. lia.
    + injection Hr as <-. done.
    + done.
  - intros [(r & Hr & Hf) | ->].
    + exists r. split; [|done]. by apply lookup_app_l_Some.
    + exists (Channel.mkChannelReceiver false (Some CbRouter)). split; [|done].
      rewrite lookup_app_r, Nat.sub_diag by lia. done.
Qed.

Lemma forwards_to_wire a st c rid :
  forwards_to c rid (wire a st) ↔
  forwards_to c rid st ∨ (c = S (length (channels st)) ∧ rid = length (receivers st)).
Proof.
  unfold forwards_to, wire. simpl. split.
  - intros (r & Hr & Hf). apply lookup_app_Some in Hr as [Hr|[Hge Hr]]; [left; eauto|].
    destruct (c - length (channels st)) as [|[|n]] eqn:Hc; simpl in Hr.
    + injection Hr as <-. done.
    + injection Hr as <-. injection Hf as <-. right. split; [lia | done].
    + done.
  - intros [(r & Hr & Hf) | [-> ->]].
    + exists r. split; [|done]. by apply lookup_app_l_Some.
    + exists (Channel.mkChannelReceiver false (Some (CbForward (length (receivers st))))).
      split; [|done]. rewrite lookup_app_r by lia.
      by replace (S (length (channels st)) - length (channels st)) with 1 by lia.
Qed.

Lemma forwards_to_lt st c rid : forwards_to c rid st → c < length (channels st).
Proof. intros (r & Hr & _). by eapply lookup_lt_Some. Qed.

Lemma tasks_cons_elem extra st (t t' : Task T) :
  t' ∈ tasks (t :: extra) st ↔ t' = t ∨ t' ∈ tasks extra st.
Proof. unfold tasks. rewrite !elem_of_app, elem_of_cons. tauto. Qed.

Lemma wire_wf extra a st :
  is_Some (messages st !! a) →
  wf extra st →
  wf (TLoopStart a (Channel.mkChannelSender (S (length (channels st)))) :: extra)
     (wire a st).
Proof.
  intros Ha Hwf.
  assert (Hold : ∀ t c, t ∈ tasks extra st → loop_chan t = Some c →
                        c < length (channels st)).
  { intros t c Ht Hc. destruct (wf_loops _ _ Hwf t c Ht Hc) as [rid Hf].
    by eapply forwards_to_lt. }
  split; try apply Hwf.
  - intros s this. simpl. intros [Hs|[_ Hs]]%lookup_app_Some; apply is_router_wire.
    + left. by eapply wf_senders.
    + destruct (s - length (senders st)) as [|n]; simpl in Hs; [|done].
      injection Hs as <-. by right.
  - intros ms this dest v Hin. apply is_router_wire. left. by eapply wf_submit.
  - intros t c [->|Ht]%tasks_cons_elem Hc.
    + injection Hc as <-. exists (length (receivers st)). apply forwards_to_wire.
      by right.
    + destruct (wf_loops _ _ Hwf t c Ht Hc) as [rid Hf]. exists rid.
      apply forwards_to_wire. by left.
  - intros c rid [Hf|[-> ->]]%forwards_to_wire; simpl; rewrite length_app; simpl.
    + pose proof (wf_forward _ _ Hwf _ _ Hf). lia.
    + lia.
  - intros c c' rid [Hf|[-> ->]]%forwards_to_wire [Hf'|[-> Hr]]%forwards_to_wire.
    + by eapply wf_forward_inj.
    + pose proof (wf_forward _ _ Hwf _ _ Hf). lia.
    + pose proof (wf_forward _ _ Hwf _ _ Hf'). lia.
    + done.
  - unfold tasks. rewrite omap_app. simpl.
    pose proof (wf_loops_nodup _ _ Hwf) as Hnd. unfold tasks in Hnd.
    rewrite omap_app in Hnd. apply NoDup_app in Hnd as (H1 & H2 & H3).
    apply NoDup_app. split; [done|]. split.
    + intros c Hc [->|Hc']%elem_of_cons; [|by eapply H2].
      apply list_elem_of_omap in Hc as (t & Ht & Hc).
      assert (t ∈ tasks extra st) as Ht' by (unfold tasks; apply elem_of_app; by left).
      pose proof (Hold t _ Ht' Hc). lia.
    + apply NoDup_cons. split; [|done]. intros Hc.
      apply list_elem_of_omap in Hc as (t & Ht & Hc).
      assert (t ∈ tasks extra st) as Ht' by (unfold tasks; apply elem_of_app; by right).
      pose proof (Hold t _ Ht' Hc). lia.
  - intros a' tx1 [[= -> _]|Ht]%tasks_cons_elem; [done|].
    by apply (wf_loop_start _ _ Hwf a' tx1).
  - intros arr tx1 [?|Ht]%tasks_cons_elem; [done|].
    by apply (wf_loop_wake _ _ Hwf arr tx1).
Qed.

Lemma wire_ordered extra a st :
  wf extra st → ordered extra st →
  ordered (TLoopStart a (Channel.mkChannelSender (S (length (channels st)))) :: extra)
          (wire a st).
Proof.
  intros Hwf Ho.
  assert (Hold : ∀ t c rid, t ∈ tasks extra st → loop_chan t = Some c →
                   forwards_to c rid (wire a st) → forwards_to c rid st).
  { intros t c rid Ht Hc [Hf|[-> _]]%forwards_to_wire; [done|].
    destruct (wf_loops _ _ Hwf t _ Ht Hc) as [rid' Hf].
    apply forwards_to_lt in Hf. lia. }
  split; try apply Ho.
  - intros arr tx1 rid [?|Ht]%tasks_cons_elem Hf; [done|].
    apply (ord_wake _ _ Ho arr tx1 rid); [done|]. by eapply Hold.
  - intros a' tx1 rid [[= -> ->]|Ht]%tasks_cons_elem Hf.
    + apply forwards_to_wire in Hf as [Hf|[_ ->]].
      * apply forwards_to_lt in Hf. simpl in Hf. lia.
      * by apply (ord_fresh _ _ Ho).
    + apply (ord_start _ _ Ho a' tx1 rid); [done|]. by eapply Hold.
  - intros rid. simpl. rewrite length_app. simpl. intros Hge.
    apply (ord_fresh _ _ Ho). lia.
Qed.

Lemma log_run_wf extra st a actor s r :
  wf extra st → wf extra (log (ERun a actor s r) st).
Proof. intros Hwf. split; apply Hwf. Qed.

Lemma log_run_ordered extra st a actor s r :
  ordered extra st → ordered extra (log (ERun a actor s r) st).
Proof.
  intros Ho.
  assert (Hs : sends (trace (log (ERun a actor s r) st)) = sends (trace st)).
  { simpl. by rewrite sends_app, app_nil_r. }
  assert (Hd : ∀ rid, delivered_to rid (trace (log (ERun a actor s r) st))
                      = delivered_to rid (trace st)).
  { intros rid. simpl. by rewrite delivered_to_app, app_nil_r. }
  split.
  - intros arr. rewrite Hs. apply Ho.
  - intros arr tx1 rid Hin Hf. rewrite Hs, Hd. by apply (ord_wake _ _ Ho arr tx1 rid).
  - intros rid. rewrite Hs, Hd. apply Ho.
  - intros a' tx1 rid Hin Hf. rewrite Hd. by apply (ord_start _ _ Ho a' tx1 rid).
  - intros rid. rewrite Hd. apply Ho.
Qed.

Lemma set_started_wf extra st x : wf extra st → wf extra (set_started x st).
Proof. intros Hwf. split; apply Hwf. Qed.

Lemma set_started_ordered extra st x :
  ordered extra st → ordered extra (set_started x st).
Proof. intros Ho. split; apply Ho. Qed.

(** ** start and mount keep the invariants *)

Lemma start_actor_inv a actor st :
  is_Some (messages st !! a) → wf [] st → ordered [] st →
  ∃ st', start_actor a actor st = inr st' ∧ wf [] st' ∧ ordered [] st' ∧
         messages st' = messages st ∧ address st' = address st.
Proof.
  intros Ha Hwf Ho. rewrite start_actor_eq. eexists. split; [done|].
  set (t := TLoopStart a (Channel.mkChannelSender (S (length (channels st))))).
  set (e := ERun a actor (length (senders st)) (length (receivers st))).
  set (l := run actor (length (senders st)) (length (receivers st))).
  pose proof (exec_actions_user_step l (log e (wire a st))) as Hu.
  split; [|split; [|split]].
  - apply wf_push; [done|]. eapply user_step_wf; [done|].
    apply log_run_wf. by apply wire_wf.
  - apply ordered_push; [done|]. eapply user_step_ordered; [done|].
    apply log_run_ordered. by apply wire_ordered.
  - simpl. by rewrite (us_messages _ _ Hu).
  - simpl. by rewrite (us_address _ _ Hu).
Qed.

Lemma start_actors_from_inv (l : list (string * Actor T)) : ∀ st,
  (∀ a, a ∈ l.*1 → is_Some (messages st !! a)) → wf [] st → ordered [] st →
  ∃ st', start_actors_from l st = inr st' ∧ wf [] st' ∧ ordered [] st' ∧
         messages st' = messages st ∧ address st' = address st.
Proof.
  induction l as [|[a actor] l IH]; intros st Hl Hwf Ho; simpl.
  - by exists st.
  - destruct (start_actor_inv a actor st) as (st1 & -> & Hwf1 & Ho1 & Hm1 & Ha1);
      [apply Hl; by left|done..|].
    destruct (IH st1) as (st' & Hs & Hwf' & Ho' & Hm' & Ha'); [|done..|].
    { intros a' Ha'. rewrite Hm1. apply Hl. by right. }
    exists st'. do 3 (split; [done|]). split; congruence.
Qed.

Lemma start_inv st :
  wf [] st → ordered [] st →
  ∃ st' pair, start st = inr (st', pair) ∧ wf [] st' ∧ ordered [] st'.
Proof.
  intros Hwf Ho. unfold start, start_actors.
  destruct (start_actors_from_inv (actors st) (set_started true st))
    as (st1 & Hs & Hwf1 & Ho1 & Hm1 & Ha1).
  { apply (wf_actors _ _ Hwf). }
  { by apply set_started_wf. }
  { by apply set_started_ordered. }
  change (actors (set_started true st)) with (actors st). rewrite Hs.
  rewrite start_system_eq. eexists _, _. split; [done|].
  assert (Hown : is_Some (messages st1 !! address st1)).
  { rewrite Hm1, Ha1. apply (wf_own _ _ Hwf). }
  split.
  - apply wf_push; [done|]. by apply wire_wf.
  - apply ordered_push; [done|]. by apply wire_ordered.
Qed.

Lemma Map_set_keys {V : Type} (k : string) (v : V) (m : list (string * V)) a :
  a ∈ (Map_set k v m).*1 ↔ a = k ∨ a ∈ m.*1.
Proof.
  induction m as [|[k' v'] m IH]; simpl.
  - rewrite list_elem_of_singleton, elem_of_nil. tauto.
  - case_bool_decide as Hk; simpl; rewrite !elem_of_cons.
    + subst k'. tauto.
    + rewrite IH. tauto.
Qed.

Lemma content_mount a actor st arr :
  content arr (mount a actor st) = content arr st.
Proof.
  unfold content, mount. simpl.
  destruct (decide (arr < length (arrays st))) as [Hlt|Hge].
  - by rewrite lookup_app_l.
  - rewrite lookup_app_r by lia. rewrite (lookup_ge_None_2 (arrays st)) by lia.
    by destruct (arr - length (arrays st)) as [|[|n]].
Qed.

Lemma mount_wf extra a actor st : wf extra st → wf extra (mount a actor st).
Proof.
  intros Hwf. split; try apply Hwf; unfold mount; simpl.
  - intros a' arr. rewrite length_app. simpl. rewrite lookup_insert.
    case_decide; [intros [= <-]; lia|]. intros Hv%(wf_map_valid _ _ Hwf). lia.
  - intros a1 a2 arr. rewrite !lookup_insert.
    repeat case_decide; try congruence.
    + intros [= <-] Hv%(wf_map_valid _ _ Hwf). lia.
    + intros Hv%(wf_map_valid _ _ Hwf) [= <-]. lia.
    + apply Hwf.
  - rewrite lookup_insert. case_decide; [done|]. apply Hwf.
  - intros a'. rewrite Map_set_keys, lookup_insert.
    case_decide; [done|]. intros [?|?]; [congruence|]. by apply (wf_actors _ _ Hwf).
  - intros a' tx1 Hin. rewrite lookup_insert. case_decide; [done|].
    by apply (wf_loop_start _ _ Hwf a' tx1).
  - intros arr tx1 Hin. rewrite length_app. simpl.
    pose proof (wf_loop_wake _ _ Hwf arr tx1 Hin). lia.
Qed.

Lemma mount_ordered extra a actor st :
  ordered extra st → ordered extra (mount a actor st).
Proof.
  intros Ho. split; try apply Ho.
  - intros arr. rewrite content_mount. apply Ho.
  - intros arr tx1 rid Hin Hf. rewrite content_mount.
    by apply (ord_wake _ _ Ho arr tx1 rid).
Qed.

Lemma System_new_wf a0 : wf [] (@System_new T a0).
Proof.
  split; simpl; try done.
  - intros a arr [_ <-]%lookup_singleton_Some. simpl. lia.
  - intros a a' arr [<- _]%lookup_singleton_Some [<- _]%lookup_singleton_Some. done.
  - rewrite lookup_singleton_eq. done.
  - intros a Ha. by apply elem_of_nil in Ha.
  - intros ms this dest v Ha. by apply elem_of_nil in Ha.
  - intros t c Ha. by apply elem_of_nil in Ha.
  - intros c rid (r & Hr & _). done.
  - intros c c' rid (r & Hr & _). done.
  - constructor.
  - intros a tx1 Ha. by apply elem_of_nil in Ha.
  - intros a tx1 Ha. by apply elem_of_nil in Ha.
  - intros ms t Ha. by apply elem_of_nil in Ha.
Qed.

Lemma System_new_ordered a0 : ordered [] (@System_new T a0).
Proof.
  split; simpl; try done.
  - intros arr. unfold content. simpl. by destruct arr as [|[|]].
  - intros arr tx1 rid Ha. by apply elem_of_nil in Ha.
Qed.

Lemma apply_op_inv o st :
  wf [] st → ordered [] st →
  ∃ st', apply_op o st = Some st' ∧ wf [] st' ∧ ordered [] st'.
Proof.
  intros Hwf Ho. destruct o as [a actor | | act |]; simpl.
  - eexists. split; [done|]. split; [by apply mount_wf | by apply mount_ordered].
  - destruct (start_inv st Hwf Ho) as (st' & pair & -> & ? & ?). by exists st'.
  - eexists. split; [done|]. pose proof (exec_action_user_step act st).
    split; [by eapply user_step_wf | by eapply user_step_ordered].
  - by apply tick_inv.
Qed.

Lemma run_ops_inv (ops : list (Op T)) : ∀ st,
  wf [] st → ordered [] st →
  ∃ st', run_ops ops st = Some st' ∧ wf [] st' ∧ ordered [] st'.
Proof.
  induction ops as [|o ops IH]; intros st Hwf Ho; simpl.
  - by exists st.
  - destruct (apply_op_inv o st Hwf Ho) as (st1 & -> & Hwf1 & Ho1). by apply IH.
Qed.

(** A run never gets stuck: [start] meets no subscribed receiver, and
    the fuel of every inner loop suffices. *)
Lemma run_ops_total (ops : list (Op T)) a0 :
  is_Some (run_ops ops (System_new a0)).
Proof.
  destruct (run_ops_inv ops (System_new a0)) as (st & -> & _);
    [apply System_new_wf | apply System_new_ordered | done].
Qed.

Lemma reachable_inv st : reachable st → wf [] st ∧ ordered [] st.
Proof.
  intros (a0 & ops & Hrun).
  destruct (run_ops_inv ops (System_new a0)) as (st' & Hrun' & ? & ?);
    [apply System_new_wf | apply System_new_ordered |].
  rewrite Hrun in Hrun'. by injection Hrun' as <-.
Qed.

Lemma run_ops_app (ops1 ops2 : list (Op T)) st :
  run_ops (ops1 ++ ops2) st =
    match run_ops ops1 st with Some st' => run_ops ops2 st' | None => None end.
Proof.
  revert st. induction ops1 as [|o ops1 IH]; intros st; simpl; [done|].
  destruct (apply_op o st); [apply IH | done].
Qed.

Lemma reachable_run_ops (ops : list (Op T)) st st' :
  reachable st → run_ops ops st = Some st' → reachable st'.
Proof.
  intros (a0 & ops0 & H0) H. exists a0, (ops0 ++ ops).
  by rewrite run_ops_app, H0.
Qed.

Lemma run_ops_tick st st' : tick st = Some st' → run_ops [OTick] st = Some st'.
Proof. intros H. simpl. by rewrite H. Qed.

(** ** What only [start] does *)

Lemma user_step_run_log st st' :
  user_step st st' → run_log (trace st') = run_log (trace st).
Proof.
  intros (new & _ & -> & _)%user_step_new_tasks.
  by rewrite run_log_app, run_log_ESend, app_nil_r.
Qed.

Lemma user_step_deliveries st st' :
  user_step st st' → deliveries (trace st') = deliveries (trace st).
Proof.
  intros (new & _ & -> & _)%user_step_new_tasks.
  by rewrite deliveries_app, deliveries_ESend, app_nil_r.
Qed.

Lemma calm_refl st : calm st st.
Proof. by split. Qed.

Lemma calm_trans st1 st2 st3 : calm st1 st2 → calm st2 st3 → calm st1 st3.
Proof. intros [H1 H2] [H3 H4]. split; [congruence | tauto]. Qed.

Lemma user_step_calm st st' : user_step st st' → calm st st'.
Proof. intros Hu. split; [by apply user_step_run_log | apply Hu]. Qed.

Lemma router_calm st m : calm st (router m st).
Proof. unfold router. destruct (messages st !! to m); by split. Qed.

Lemma forward_calm st rid m : calm st (forward rid m st).
Proof.
  unfold forward. destruct (receivers st !! rid) as [r|]; [|apply calm_refl].
  apply (calm_trans _ (log (EDeliver rid m) st)).
  - split; [|done]. simpl. by rewrite run_log_app, app_nil_r.
  - apply user_step_calm, exec_actions_user_step.
Qed.

Lemma ChannelSender_send_calm st tx m : calm st (ChannelSender_send tx m st).
Proof.
  unfold ChannelSender_send, Channel.dispatch.
  destruct (channels st !! Channel.receiver tx) as [r|]; [|apply calm_refl].
  destruct (Channel.func r) as [[|this]|]; simpl.
  - apply router_calm.
  - apply forward_calm.
  - apply calm_refl.
Qed.

Lemma drain_calm arr tx1 fuel : ∀ st st',
  drain fuel arr tx1 st = Some st' → calm st st'.
Proof.
  induction fuel as [|fuel IH]; intros st st'; [done|]. simpl.
  destruct (arrays st !! arr) as [[|m rest]|];
    try (intros [= <-]; apply calm_refl).
  intros Hd. apply IH in Hd. eapply calm_trans; [|apply Hd].
  apply (calm_trans _ (set_arrays (<[arr := rest]> (arrays st)) st)); [by split|].
  apply ChannelSender_send_calm.
Qed.

Lemma loop_head_calm st arr tx1 : calm st (loop_head arr tx1 st).
Proof. unfold loop_head. destruct (started st); by split. Qed.

Lemma tick_calm st st' : tick st = Some st' → calm st st'.
Proof.
  unfold tick. destruct (timers st) as [|[ms t] rest]; [intros [= <-]; apply calm_refl|].
  set (st0 := set_timers rest st). assert (calm st st0) as H0 by by split.
  destruct t as [this dest v | a tx1 | arr tx1]; unfold fire.
  - intros [= <-]. eapply calm_trans; [done|]. apply ChannelSender_send_calm.
  - destruct (messages st0 !! a); intros [= <-]; [|done].
    eapply calm_trans; [done|]. apply loop_head_calm.
  - destruct (drain _ arr tx1 st0) as [st1|] eqn:Hd; [|done]. intros [= <-].
    eapply calm_trans; [done|]. eapply calm_trans; [by eapply drain_calm|].
    apply loop_head_calm.
Qed.

Lemma apply_op_calm o st st' :
  is_start o = false → apply_op o st = Some st' → calm st st'.
Proof.
  destruct o as [a actor | | act |]; simpl; try done.
  - intros _ [= <-]. by split.
  - intros _ [= <-]. apply user_step_calm, exec_action_user_step.
  - intros _. apply tick_calm.
Qed.

Lemma run_ops_calm (ops : list (Op T)) : ∀ st st',
  Forall (λ o, is_start o = false) ops → run_ops ops st = Some st' → calm st st'.
Proof.
  induction ops as [|o ops IH]; intros st st' Hf; simpl.
  - intros [= <-]. apply calm_refl.
  - apply Forall_cons in Hf as [Ho Hf].
    destruct (apply_op o st) as [st1|] eqn:H1; [|done]. intros H2.
    eapply calm_trans; [by eapply apply_op_calm | by apply IH].
Qed.

(** ** What [start] does *)

Lemma extends_refl st : extends st st.
Proof. by repeat split. Qed.

Lemma extends_trans st1 st2 st3 : extends st1 st2 → extends st2 st3 → extends st1 st3.
Proof. intros (?&?&?) (?&?&?). repeat split; by etrans. Qed.

Lemma user_step_extends st st' : user_step st st' → extends st st'.
Proof.
  intros Hu. unfold extends.
  by rewrite (us_senders _ _ Hu), (us_channels _ _ Hu), (us_receiver_objs _ _ Hu).
Qed.

Lemma wire_extends a st : extends st (wire a st).
Proof.
  repeat split; simpl; try rewrite fmap_app; by apply prefix_app_r.
Qed.

Lemma bound_extends a s r st st' : extends st st' → bound a s r st → bound a s r st'.
Proof.
  intros (Hs & Hc & Hr) [(this & H1 & H2 & (c & H3 & H4)) (R & H5 & H6 & (c' & H7 & H8))].
  split.
  - exists this. split; [by eapply prefix_lookup_Some|]. split; [done|].
    exists c. split; [by eapply prefix_lookup_Some|done].
  - assert (((λ r, (Receiver_address r, Receiver_receiver r)) <$> receivers st') !! r
            = Some (Receiver_address R, Receiver_receiver R)) as HR.
    { eapply prefix_lookup_Some; [|done]. by rewrite list_lookup_fmap, H5. }
    rewrite list_lookup_fmap in HR.
    destruct (receivers st' !! r) as [R'|]; [|done]. injection HR as Ha Hrr.
    exists R'. split; [done|]. split; [congruence|]. rewrite Hrr.
    exists c'. split; [by eapply prefix_lookup_Some|done].
Qed.

Lemma wire_bound a st :
  bound a (length (senders st)) (length (receivers st)) (wire a st).
Proof.
  split.
  - eexists. split; [apply lookup_snoc_length|]. split; [done|].
    apply is_router_wire. by right.
  - eexists. split; [apply lookup_snoc_length|]. split; [done|].
    apply forwards_to_wire. by right.
Qed.

Lemma exec_actions_started (l : list (Action T)) : ∀ st,
  AStop ∉ l → started (exec_actions l st) = started st.
Proof.
  induction l as [|act l IH]; intros st Hl; simpl; [done|].
  apply not_elem_of_cons in Hl as [Hne Hl]. rewrite IH by done.
  destruct act as [s dest v | r f |]; simpl; try done.
  unfold Sender_send. by destruct (senders st !! s).
Qed.

Lemma start_actors_from_spec (l : list (string * Actor T)) : ∀ st,
  ∃ st' new,
    start_actors_from l st = inr st' ∧
    run_log (trace st') = run_log (trace st) ++ new ∧
    new.*1 = l ∧
    (∀ a actor s r, (a, actor, (s, r)) ∈ new → bound a s r st') ∧
    extends st st' ∧
    deliveries (trace st') = deliveries (trace st) ∧
    actors st' = actors st ∧ address st' = address st ∧
    ((∀ a actor s r, (a, actor) ∈ l → AStop ∉ run actor s r) →
     started st' = started st) ∧
    (∃ newt, timers st' = timers st ++ newt ∧
             ∀ t c, t ∈ newt.*2 → loop_chan t = Some c → length (channels st) ≤ c).
Proof.
  induction l as [|[a actor] l IH]; intros st; simpl.
  - exists st, []. rewrite app_nil_r. split; [done|]. split; [done|]. split; [done|].
    split; [|repeat split; try done].
    + intros ???? Hin. by apply elem_of_nil in Hin.
    + exists []. rewrite app_nil_r. split; [done|].
      intros t c Hin. by apply elem_of_nil in Hin.
  - rewrite start_actor_eq.
    set (s := length (senders st)). set (r := length (receivers st)).
    set (st0 := log (ERun a actor s r) (wire a st)).
    set (st1 := exec_actions (run actor s r) st0).
    pose proof (exec_actions_user_step (run actor s r) st0) as Hu. fold st1 in Hu.
    set (st2 := setTimeout _ 1 st1).
    destruct (IH st2)
      as (st' & new & Hs & Hrl & Hnew & Hb & He & Hd & Hac & Had & Hst & newt & Ht & Hnt).
    assert (He2 : extends st st2).
    { apply (extends_trans _ st0); [exact (wire_extends a st)|].
      exact (user_step_extends _ _ Hu). }
    exists st', ((a, actor, (s, r)) :: new). split; [done|]. split; [|split; [|split]].
    + rewrite Hrl. simpl. rewrite (user_step_run_log _ _ Hu). simpl.
      rewrite run_log_app. simpl. by rewrite <- app_assoc.
    + by rewrite fmap_cons, Hnew.
    + intros a' actor' s' r' [[= -> -> -> ->]|Hin]%elem_of_cons; [|by eapply Hb].
      apply (bound_extends _ _ _ st2); [done|].
      apply (bound_extends _ _ _ st0); [exact (user_step_extends _ _ Hu)|].
      exact (wire_bound a st).
    + split; [by eapply extends_trans|]. split; [|split; [|split; [|split]]].
      * rewrite Hd. simpl. rewrite (user_step_deliveries _ _ Hu). simpl.
        by rewrite deliveries_app, app_nil_r.
      * rewrite Hac. simpl. by rewrite (us_actors _ _ Hu).
      * rewrite Had. simpl. by rewrite (us_address _ _ Hu).
      * intros Hno. rewrite Hst.
        -- simpl. unfold st1. rewrite exec_actions_started; [done|].
           eapply Hno. by left.
        -- intros a' actor' s' r' Hin. eapply Hno. by right.
      * destruct (user_step_new_tasks _ _ Hu) as (nu & Htu & _ & Hnu & _).
        exists (nu ++ [(1, TLoopStart a (Channel.mkChannelSender (S (length (channels st)))))]
                  ++ newt).
        split.
        { rewrite Ht. simpl. rewrite Htu. simpl. by rewrite <- !app_assoc. }
        intros t c. rewrite !fmap_app, !elem_of_app. simpl.
        intros [Hin|[Hin|Hin]] Hc.
        { apply Hnu in Hin. congruence. }
        { apply list_elem_of_singleton in Hin as ->. injection Hc as <-. lia. }
        { specialize (Hnt t c Hin Hc). revert Hnt. simpl.
          rewrite (us_channels _ _ Hu). simpl. rewrite length_app. lia. }
Qed.

Lemma start_spec st :
  ∃ st' s r new,
    start st = inr (st', (s, r)) ∧
    run_log (trace st') = run_log (trace st) ++ new ∧
    new.*1 = actors st ∧
    (∀ a actor s r, (a, actor, (s, r)) ∈ new → bound a s r st') ∧
    bound (address st) s r st' ∧
    extends st st' ∧
    deliveries (trace st') = deliveries (trace st) ∧
    ((∀ a actor s r, (a, actor) ∈ actors st → AStop ∉ run actor s r) →
     started st' = true) ∧
    (∃ newt, timers st' = timers st ++ newt ∧
             ∀ t c, t ∈ newt.*2 → loop_chan t = Some c → length (channels st) ≤ c).
Proof.
  unfold start, start_actors.
  destruct (start_actors_from_spec (actors st) (set_started true st))
    as (st1 & new & Hs & Hrl & Hnew & Hb & He & Hd & Hac & Had & Hst & newt & Ht & Hnt).
  change (actors (set_started true st)) with (actors st). rewrite Hs.
  rewrite start_system_eq.
  set (st2 := setTimeout _ 1 (wire (address st1) st1)).
  assert (He2 : extends st1 st2) by exact (wire_extends (address st1) st1).
  exists st2, (length (senders st1)), (length (receivers st1)), new.
  split; [done|]. split; [done|]. split; [done|].
  split; [|split; [|split; [|split; [|split]]]].
  - intros a actor s r Hin. apply (bound_extends _ _ _ st1); [done|]. by eapply Hb.
  - simpl in Had. rewrite <- Had. exact (wire_bound (address st1) st1).
  - by apply (extends_trans _ st1).
  - done.
  - intros Hno. simpl. by rewrite Hst.
  - exists (newt ++ [(1, TLoopStart (address st1)
                          (Channel.mkChannelSender (S (length (channels st1)))))]).
    split; [simpl; rewrite Ht; by rewrite <- app_assoc|].
    intros t c. rewrite fmap_app, elem_of_app. simpl. intros [Hin|Hin] Hc.
    + by apply (Hnt t c).
    + apply list_elem_of_singleton in Hin as ->. injection Hc as <-.
      destruct He as (_ & Hp%prefix_length & _). simpl in Hp. lia.
Qed.

(** ** A cycle of a drain loop *)

Lemma delivered_to_deliveries rid (tr : list (Event T)) :
  delivered_to rid tr =
    omap (λ x, if decide (x.1 = rid) then Some x.2 else None) (deliveries tr).
Proof.
  induction tr as [|e tr IH]; [done|].
  destruct e as [a actor s r | m | r m]; simpl; try done.
  unfold delivered_to in *. simpl. destruct (decide (r = rid)); simpl; by rewrite IH.
Qed.

Lemma omap_other_receiver rid rid' (l : list (SystemMessage T)) :
  rid' ≠ rid →
  omap (λ x : nat * SystemMessage T, if decide (x.1 = rid) then Some x.2 else None)
       ((λ m, (rid', m)) <$> l) = [].
Proof.
  intros Hne. induction l as [|m l IH]; [done|]. simpl.
  unfold omap in *. simpl. by rewrite decide_False.
Qed.

(** The timer of [delay(1)] of a drain loop fires in a state of a run:
    whatever [started] is, the loop hands every envelope of its array to
    its receiver, oldest first and each once, and empties the array;
    then it tests [started], and either waits for its next cycle or is
    gone from the timers. *)
Lemma tick_wake st ms arr tx1 rest :
  wf [] st → timers st = (ms, TLoopWake arr tx1) :: rest →
  ∃ rid st' new,
    forwards_to (Channel.receiver tx1) rid st ∧
    tick st = Some st' ∧
    deliveries (trace st') =
      deliveries (trace st) ++ ((λ m, (rid, m)) <$> content arr st) ∧
    content arr st' = [] ∧
    (∀ t, t ∈ new.*2 → loop_chan t = None) ∧
    timers st' = rest ++ new ++
      (if started st' then [(1, TLoopWake arr tx1)] else []) ∧
    channels st' = channels st.
Proof.
  intros Hwf Ht. unfold tick. rewrite Ht. unfold fire.
  set (st0 := set_timers rest st).
  pose proof (wf_pop [] st ms _ rest Ht Hwf) as Hwf0. fold st0 in Hwf0.
  assert (Hin : TLoopWake arr tx1 ∈ tasks [TLoopWake arr tx1] st0).
  { unfold tasks. apply elem_of_app. right. by left. }
  destruct (wf_loops _ _ Hwf0 _ _ Hin eq_refl) as [rid Hf].
  pose proof (wf_loop_wake _ _ Hwf0 _ _ Hin) as Hlt.
  apply lookup_lt_is_Some in Hlt as [l Hl].
  destruct (drain_forward arr tx1 rid l st0 (S (array_length arr st0)))
    as (st1 & Hd & Ha & Hdl & _ & _ & Hc & _ & _ & _ & _ & _ & new & Htm & Hnew);
    [done|done|by eapply wf_forward| |].
  { unfold array_length. rewrite Hl. simpl. lia. }
  rewrite Hd. exists rid, (loop_head arr tx1 st1), new.
  assert (Hcl : content arr st = l).
  { unfold content. change (arrays st) with (arrays st0). by rewrite Hl. }
  split; [done|]. split; [done|]. unfold loop_head.
  assert (Hce : content arr st1 = []).
  { unfold content. rewrite Ha. simpl. rewrite list_lookup_insert_eq; [done|].
    by eapply lookup_lt_Some. }
  destruct (started st1) eqn:Hst; simpl; rewrite ?Hst, Hdl, Htm, Hcl; simpl.
  - repeat split; try done. by rewrite <- app_assoc.
  - rewrite app_nil_r. by repeat split.
Qed.

(** ** A drain loop that has ended *)

Lemma apply_op_no_loop o st st' c rid :
  wf [] st → forwards_to c rid st → no_loop c st →
  apply_op o st = Some st' →
  forwards_to c rid st' ∧ no_loop c st' ∧
  delivered_to rid (trace st') = delivered_to rid (trace st).
Proof.
  intros Hwf Hf Hno. destruct o as [a actor | | act |]; simpl.
  - intros [= <-]. by repeat split.
  - destruct (start_spec st)
      as (st1 & s & r & new & -> & _ & _ & _ & _ & He & Hd & _ & newt & Ht & Hnt).
    intros [= <-]. split; [|split].
    + destruct Hf as (x & Hx & Hfx). exists x. split; [|done].
      destruct He as (_ & Hp & _). by eapply prefix_lookup_Some.
    + intros t. rewrite Ht, fmap_app, elem_of_app. intros [Hin|Hin]; [by apply Hno|].
      intros Hc. specialize (Hnt t c Hin Hc). apply forwards_to_lt in Hf. lia.
    + by rewrite !delivered_to_deliveries, Hd.
  - intros [= <-]. pose proof (exec_action_user_step act st) as Hu.
    destruct (user_step_new_tasks _ _ Hu) as (new & Ht & _ & Hn & _).
    split; [by apply (user_step_forwards_to st)|]. split.
    + intros t. rewrite Ht, fmap_app, elem_of_app. intros [Hin|Hin]; [by apply Hno|].
      apply Hn in Hin. congruence.
    + by rewrite !delivered_to_deliveries, (user_step_deliveries _ _ Hu).
  - unfold tick. destruct (timers st) as [|[ms t] rest] eqn:Ht;
      [intros [= <-]; by repeat split|].
    assert (Hrest : ∀ t', t' ∈ rest.*2 → loop_chan t' ≠ Some c).
    { intros t' Hin. apply Hno. rewrite Ht. simpl. by right. }
    assert (Hhd : loop_chan t ≠ Some c).
    { apply Hno. rewrite Ht. simpl. by left. }
    destruct t as [this dest v | a tx1 | arr tx1].
    + unfold fire. intros [= <-].
      rewrite ChannelSender_send_router.
      2:{ apply (wf_submit _ _ Hwf ms this dest v). rewrite Ht. by left. }
      unfold router. simpl. destruct (messages st !! dest); by repeat split.
    + unfold fire. simpl.
      destruct (messages st !! a) as [arr|]; intros [= <-]; [|by repeat split].
      unfold loop_head. simpl. destruct (started st); [|by repeat split].
      repeat split; try done. intros t. simpl. rewrite fmap_app, elem_of_app.
      intros [Hin|Hin]; [by apply Hrest|].
      by apply list_elem_of_singleton in Hin as ->.
    + destruct (tick_wake st ms arr tx1 rest Hwf Ht)
        as (rid' & st1 & new & Hf' & Htick & Hdl & _ & Hn & Htm & Hch).
      unfold tick in Htick. rewrite Ht in Htick. rewrite Htick. intros [= <-].
      assert (rid' ≠ rid) as Hne.
      { intros ->. apply Hhd. simpl. f_equal. by eapply (wf_forward_inj _ _ Hwf). }
      split; [|split].
      * unfold forwards_to. by rewrite Hch.
      * intros t. rewrite Htm, !fmap_app, !elem_of_app.
        intros [Hin|[Hin|Hin]]; [by apply Hrest|apply Hn in Hin; congruence|].
        destruct (started st1); [|by apply elem_of_nil in Hin].
        by apply list_elem_of_singleton in Hin as ->.
      * rewrite !delivered_to_deliveries, Hdl, omap_app.
        by rewrite omap_other_receiver, app_nil_r.
Qed.

Lemma run_ops_no_loop (ops : list (Op T)) : ∀ st st' c rid,
  wf [] st → ordered [] st → forwards_to c rid st → no_loop c st →
  run_ops ops st = Some st' →
  delivered_to rid (trace st') = delivered_to rid (trace st).
Proof.
  induction ops as [|o ops IH]; intros st st' c rid Hwf Ho Hf Hno; simpl.
  - by intros [= <-].
  - destruct (apply_op_inv o st Hwf Ho) as (st1 & H1 & Hwf1 & Ho1). rewrite H1.
    destruct (apply_op_no_loop o st st1 c rid Hwf Hf Hno H1) as (Hf1 & Hno1 & Hd1).
    intros H2. rewrite <- Hd1. by eapply IH.
Qed.

(** * The claims *)

(** ** Mailboxes: mount and the router *)

(** C4: the handler subscribed on the outbound raw channels is [router];
    in every state of a run, when the [to] address of the envelope has an
    entry in [messages] the envelope is appended at the tail of that
    mailbox and the other mailboxes are as before; when it has none the
    state is unchanged.  [router] has no error case. *)
Theorem router_enqueue_or_drop st m :
  reachable st →
  (∀ tx, is_router (Channel.receiver tx) st → ChannelSender_send tx m st = router m st) ∧
  (∀ arr, messages st !! to m = Some arr →
     ∃ l, mailbox (to m) st = Some l ∧
          mailbox (to m) (router m st) = Some (l ++ [m]) ∧
          ∀ a', a' ≠ to m → mailbox a' (router m st) = mailbox a' st) ∧
  (messages st !! to m = None →
     router m st = st ∧ ∀ a', mailbox a' (router m st) = mailbox a' st).
Proof.
  intros [Hwf _]%reachable_inv. split; [|split].
  - intros tx Hr. by apply ChannelSender_send_router.
  - intros arr Ha.
    destruct (lookup_lt_is_Some_2 (arrays st) arr) as [l Hl];
      [by eapply wf_map_valid|].
    exists l. unfold mailbox, router. rewrite Ha. simpl. rewrite Ha.
    split; [done|]. split.
    + by rewrite list_lookup_alter_eq, Hl.
    + intros a' Hne. destruct (messages st !! a') as [arr'|] eqn:Ha'; [|done].
      apply list_lookup_alter_ne. intros <-. apply Hne.
      by apply (wf_map_inj _ _ Hwf a' (to m) arr).
  - intros Ha. unfold router. by rewrite Ha.
Qed.

(** ** The addressed Receiver *)

Lemma exec_actions_app (l1 l2 : list (Action T)) st :
  exec_actions (l1 ++ l2) st = exec_actions l2 (exec_actions l1 st).
Proof. apply foldl_app. Qed.

(** C5: on an addressed Receiver (an object of the store with a raw
    channel that forwards to it), any number of calls of [on] is a state
    without an error case; after the calls the registered callback is the
    last one given, and the next envelope sent on the raw channel calls
    that callback with [(from, value)]. *)
Theorem Receiver_on_overwrites st rid tx this (hs : list (Handler T)) (h : Handler T) m :
  receivers st !! rid = Some this →
  forwards_to (Channel.receiver tx) rid st →
  let st' := exec_actions (AOn rid <$> (hs ++ [h])) st in
  receivers st' !! rid =
    Some (mkReceiver (Receiver_address this) (Receiver_receiver this) h) ∧
  ChannelSender_send tx m st' =
    exec_actions (h (from m) (value m)) (log (EDeliver rid m) st').
Proof.
  intros Hr Hf st'.
  assert (Hrec : receivers st' !! rid =
            Some (mkReceiver (Receiver_address this) (Receiver_receiver this) h)).
  { unfold st'. rewrite fmap_app, exec_actions_app. simpl.
    set (st1 := exec_actions (AOn rid <$> hs) st).
    pose proof (exec_actions_user_step (AOn rid <$> hs) st) as Hu. fold st1 in Hu.
    assert (((λ r, (Receiver_address r, Receiver_receiver r)) <$> receivers st1) !! rid
            = Some (Receiver_address this, Receiver_receiver this)) as H1.
    { rewrite (us_receiver_objs _ _ Hu), list_lookup_fmap, Hr. done. }
    rewrite list_lookup_fmap in H1. rewrite list_lookup_alter_eq.
    destruct (receivers st1 !! rid) as [R|]; [|done]. simpl in *.
    injection H1 as H1 H2. unfold Receiver_on_obj. by rewrite H1, H2. }
  split; [done|].
  rewrite (ChannelSender_send_forward st' tx rid m).
  - unfold forward. by rewrite Hrec.
  - apply (user_step_forwards_to st); [apply exec_actions_user_step | done].
Qed.

(** The constructor [new Receiver(address, rx1)] on the receiver of a
    fresh channel gives such an object. *)
Lemma new_Receiver_forwards a st :
  let '(st0, (tx, rx)) := channel st in
  ∃ st1 rid this, new_Receiver a rx st0 = inr (st1, rid) ∧
    receivers st1 !! rid = Some this ∧ Receiver_address this = a ∧
    forwards_to (Channel.receiver tx) rid st1.
Proof.
  rewrite channel_eq. unfold new_Receiver. simpl.
  rewrite ChannelReceiver_on_fresh by apply lookup_snoc_length.
  eexists _, _, _. split; [reflexivity|]. simpl. split; [apply lookup_snoc_length|].
  split; [done|].
  exists (Channel.mkChannelReceiver false (Some (CbForward (length (receivers st))))).
  simpl. split; [|done].
  apply list_lookup_insert_eq. rewrite length_app. simpl. lia.
Qed.

(** ** Order of delivery *)


(** ** stop and the drain loops *)

(** C6 (amended): in every state of a run, (1) when the timer of a cycle
    of a drain loop fires, the loop finishes the cycle whatever [started]
    is: every envelope of its array is handed to its receiver once, oldest
    first, and the array is left empty; if the test of [started] that
    follows fails, the loop is gone from the timers and its receiver is
    never called again, whatever happens next; (2) a drain loop whose
    first test of [started] fails has no cycle: it delivers nothing, the
    arrays are as they were, and its receiver is never called. *)
Theorem post_stop_grace_flush st :
  reachable st →
  (∀ ms arr tx1 rest, timers st = (ms, TLoopWake arr tx1) :: rest →
     ∃ rid st',
       forwards_to (Channel.receiver tx1) rid st ∧
       tick st = Some st' ∧
       deliveries (trace st') =
         deliveries (trace st) ++ ((λ m, (rid, m)) <$> content arr st) ∧
       content arr st' = [] ∧
       (started st' = false →
          no_loop (Channel.receiver tx1) st' ∧
          ∀ ops st'', run_ops ops st' = Some st'' →
            delivered_to rid (trace st'') = delivered_to rid (trace st'))) ∧
  (∀ ms a tx1 rest, timers st = (ms, TLoopStart a tx1) :: rest →
     started st = false →
     ∃ rid,
       forwards_to (Channel.receiver tx1) rid st ∧
       tick st = Some (set_timers rest st) ∧
       no_loop (Channel.receiver tx1) (set_timers rest st) ∧
       ∀ ops st'', run_ops ops (set_timers rest st) = Some st'' →
         delivered_to rid (trace st'') = []).
Proof.
  intros Hreach. destruct (reachable_inv st Hreach) as [Hwf Ho].
  assert (Hnd : ∀ ms t rest c, timers st = (ms, t) :: rest →
            loop_chan t = Some c → ∀ t', t' ∈ rest.*2 → loop_chan t' ≠ Some c).
  { intros ms t rest c Ht Hc t' Hin Hc'.
    pose proof (wf_loops_nodup _ _ Hwf) as Hn. unfold tasks in Hn.
    rewrite Ht, app_nil_r in Hn. simpl in Hn. rewrite Hc in Hn.
    apply NoDup_cons in Hn as [Hn _]. apply Hn.
    apply list_elem_of_omap. by exists t'. }
  split.
  - intros ms arr tx1 rest Ht.
    destruct (tick_wake st ms arr tx1 rest Hwf Ht)
      as (rid & st' & new & Hf & Htick & Hd & Hc & Hnew & Htm & Hch).
    exists rid, st'. do 4 (split; [done|]). intros Hst.
    assert (Hno : no_loop (Channel.receiver tx1) st').
    { intros t. rewrite Htm, Hst, app_nil_r, fmap_app, elem_of_app.
      intros [Hin|Hin]; [by eapply Hnd|]. apply Hnew in Hin. congruence. }
    split; [done|]. intros ops st'' Hrun.
    assert (reachable st') as [Hwf' Ho']%reachable_inv.
    { apply (reachable_run_ops [OTick] st); [done|]. by apply run_ops_tick. }
    apply (run_ops_no_loop ops st' st'' (Channel.receiver tx1) rid); try done.
    unfold forwards_to. by rewrite Hch.
  - intros ms a tx1 rest Ht Hst.
    assert (Hin : TLoopStart a tx1 ∈ tasks [] st).
    { unfold tasks. rewrite Ht, app_nil_r. simpl. by left. }
    destruct (wf_loops _ _ Hwf _ _ Hin eq_refl) as [rid Hf].
    exists rid. split; [done|].
    assert (Htick : tick st = Some (set_timers rest st)).
    { unfold tick. rewrite Ht. unfold fire, loop_head. simpl. rewrite Hst.
      by destruct (messages st !! a). }
    split; [done|].
    assert (Hno : no_loop (Channel.receiver tx1) (set_timers rest st)).
    { intros t Hin'. by eapply Hnd. }
    split; [done|]. intros ops st'' Hrun.
    assert (reachable (set_timers rest st)) as [Hwf' Ho']%reachable_inv.
    { apply (reachable_run_ops [OTick] st); [done|]. by apply run_ops_tick. }
    rewrite (run_ops_no_loop ops _ st'' (Channel.receiver tx1) rid Hwf' Ho'); try done.
    by apply (ord_start _ _ Ho a tx1 rid).
Qed.

(** ** start *)

(** C8 (amended): [started] is [false] in a new System; [start()] sets
    it, and it is [true] when [start()] returns unless a [run] called
    [stop()]; [stop()] clears it; nothing but [start()] sets it: while no
    [start()] is called, a cleared flag stays cleared.  (A [start()]
    after a [stop()] sets it again.) *)
Theorem started_lifecycle :
  (∀ a0, started (@System_new T a0) = false) ∧
  (∀ st, (∀ a actor s r, (a, actor) ∈ actors st → AStop ∉ run actor s r) →
     ∃ st' pair, start st = inr (st', pair) ∧ started st' = true) ∧
  (∀ st, started (stop st) = false) ∧
  (∀ ops st st', Forall (λ o, is_start o = false) ops →
     run_ops ops st = Some st' → started st = false → started st' = false).
Proof.
  split; [done|]. split; [|split; [done|]].
  - intros st Hno.
    destruct (start_spec st) as (st' & s & r & new & Hs & _ & _ & _ & _ & _ & _ & Hst & _).
    exists st', (s, r). split; [done|]. by apply Hst.
  - intros ops st st' Hf Hrun Hst.
    destruct (run_ops_calm ops st st' Hf Hrun) as [_ Hc].
    destruct (started st'); [|done]. rewrite Hc in Hst; done.
Qed.

(** * More of the code *)

(** ** channel.ts: the hand-off *)

(** X1: on a fresh [channel()], a [send] before any [on] runs the
    initial callback, which does nothing; after [rx.on(f)], a [send] of
    [v] on the sender is the call [f(v)], in the same turn; the channels
    that existed before are untouched. *)
Theorem channel_hand_off st (f : RawCallback) m :
  let '(st0, (tx, rx)) := channel st in
  ChannelSender_send tx m st0 = st0 ∧
  ∃ st1, ChannelReceiver_on rx f st0 = inr st1 ∧
         ChannelSender_send tx m st1 = call f m st1 ∧
         ∀ c r, channels st !! c = Some r → channels st1 !! c = Some r.
Proof.
  rewrite channel_eq. split.
  - unfold ChannelSender_send. simpl. by rewrite lookup_snoc_length.
  - eexists. split.
    { apply ChannelReceiver_on_fresh. simpl. apply lookup_snoc_length. }
    split.
    + unfold ChannelSender_send. simpl.
      rewrite list_lookup_insert_eq by (rewrite length_app; simpl; lia). done.
    + intros c r Hc. simpl.
      rewrite list_lookup_insert_ne by (apply lookup_lt_Some in Hc; lia).
      by apply lookup_app_l_Some.
Qed.

(** ** index.ts: what only mount writes *)

Lemma same_system_refl st : same_system st st.
Proof. by repeat split. Qed.

Lemma same_system_trans st1 st2 st3 :
  same_system st1 st2 → same_system st2 st3 → same_system st1 st3.
Proof. intros (?&?&?) (?&?&?). repeat split; congruence. Qed.

Lemma user_step_same_system st st' : user_step st st' → same_system st st'.
Proof. intros Hu. repeat split; apply Hu. Qed.

Lemma ChannelSender_send_same_system st tx m :
  same_system st (ChannelSender_send tx m st).
Proof.
  unfold ChannelSender_send, Channel.dispatch.
  destruct (channels st !! Channel.receiver tx) as [r|]; [|apply same_system_refl].
  destruct (Channel.func r) as [[|this]|]; simpl; [| |apply same_system_refl].
  - unfold router. destruct (messages st !! to m); by repeat split.
  - unfold forward. destruct (receivers st !! this) as [R|]; [|apply same_system_refl].
    apply (same_system_trans _ (log (EDeliver this m) st)); [by repeat split|].
    apply user_step_same_system, exec_actions_user_step.
Qed.

Lemma drain_same_system arr tx1 fuel : ∀ st st',
  drain fuel arr tx1 st = Some st' → same_system st st'.
Proof.
  induction fuel as [|fuel IH]; intros st st'; [done|]. simpl.
  destruct (arrays st !! arr) as [[|m rest]|];
    try (intros [= <-]; apply same_system_refl).
  intros Hd. apply IH in Hd. eapply same_system_trans; [|apply Hd].
  apply (same_system_trans _ (set_arrays (<[arr := rest]> (arrays st)) st));
    [by repeat split|].
  apply ChannelSender_send_same_system.
Qed.

Lemma tick_same_system st st' : tick st = Some st' → same_system st st'.
Proof.
  unfold tick. destruct (timers st) as [|[ms t] rest];
    [intros [= <-]; apply same_system_refl|].
  set (st0 := set_timers rest st).
  assert (same_system st st0) as H0 by by repeat split.
  assert (Hl : ∀ arr tx1 (s : State T), same_system s (loop_head arr tx1 s)).
  { intros arr tx1 s. unfold loop_head. destruct (started s); by repeat split. }
  destruct t as [this dest v | a tx1 | arr tx1]; unfold fire.
  - intros [= <-]. eapply same_system_trans; [done|].
    apply ChannelSender_send_same_system.
  - destruct (messages st0 !! a); intros [= <-]; [|done].
    eapply same_system_trans; [done|]. apply Hl.
  - destruct (drain _ arr tx1 st0) as [st1|] eqn:Hd; [|done]. intros [= <-].
    eapply same_system_trans; [done|].
    eapply same_system_trans; [by eapply drain_same_system|]. apply Hl.
Qed.

Lemma start_actors_from_frame (l : list (string * Actor T)) : ∀ st st',
  start_actors_from l st = inr st' →
  same_system st st' ∧ arrays st' = arrays st.
Proof.
  induction l as [|[a actor] l IH]; intros st st'; simpl.
  - intros [= <-]. split; [apply same_system_refl | done].
  - rewrite start_actor_eq.
    set (s := length (senders st)). set (r := length (receivers st)).
    set (st0 := log (ERun a actor s r) (wire a st)).
    pose proof (exec_actions_user_step (run actor s r) st0) as Hu.
    intros Hs. apply IH in Hs as [(H1 & H2 & H3) H4]. simpl in *.
    rewrite (us_address _ _ Hu) in H1. rewrite (us_messages _ _ Hu) in H2.
    rewrite (us_actors _ _ Hu) in H3. rewrite (us_arrays _ _ Hu) in H4.
    by repeat split.
Qed.

Lemma start_frame st st' pair :
  start st = inr (st', pair) → same_system st st' ∧ arrays st' = arrays st.
Proof.
  unfold start, start_actors.
  destruct (start_actors_from (actors (set_started true st)) (set_started true st))
    as [e|st1] eqn:Hs; [done|].
  apply start_actors_from_frame in Hs as [(H1 & H2 & H3) H4].
  rewrite start_system_eq. intros [= <- _]. simpl in *. by repeat split.
Qed.

(** X2: [start()] has no error case in any state.  It returns a sender
    and a receiver that are bound to the System's own address and wired,
    and its last timer is the drain loop of that address, which feeds
    the returned receiver; it writes neither the registry, nor the
    [messages] map, nor any array. *)
Theorem start_returns_own_pair st :
  ∃ st' s r tx1,
    start st = inr (st', (s, r)) ∧
    bound (address st) s r st' ∧
    last (timers st') = Some (1, TLoopStart (address st) tx1) ∧
    forwards_to (Channel.receiver tx1) r st' ∧
    same_system st st' ∧ arrays st' = arrays st.
Proof.
  destruct (start_spec st) as (st' & s & r & new & Hs & _ & _ & _ & Hb & _).
  destruct (start_frame _ _ _ Hs) as [Hsys Harr].
  revert Hs. unfold start, start_actors.
  destruct (start_actors_from (actors (set_started true st)) (set_started true st))
    as [e|st1] eqn:Hs1; [done|].
  apply start_actors_from_frame in Hs1 as [(H1 & _ & _) _]. simpl in H1.
  rewrite start_system_eq. intros [= <- <- <-].
  exists (setTimeout (TLoopStart (address st1)
            (Channel.mkChannelSender (S (length (channels st1))))) 1
            (wire (address st1) st1)),
    (length (senders st1)), (length (receivers st1)),
    (Channel.mkChannelSender (S (length (channels st1)))).
  split; [done|]. split; [done|]. split; [|split; [|done]].
  - simpl. rewrite last_snoc. by rewrite H1.
  - apply (forwards_to_wire (address st1) st1). by right.
Qed.

(** X3: no run of a new System gets stuck: no [start()] meets a
    subscribed raw receiver, and every inner loop of a drain loop ends
    within the length its array has on entry. *)
Theorem runs_never_stuck a0 (ops : list (Op T)) :
  ∃ st, run_ops ops (System_new a0) = Some st.
Proof.
  destruct (run_ops_inv ops (System_new a0)) as (st & H & _);
    [apply System_new_wf | apply System_new_ordered |]. by exists st.
Qed.

(** X4: in every state of a run, the System's own address and every
    address of the registry have a mailbox (an array behind their entry
    of [messages]), and no two addresses share an array. *)
Theorem every_address_has_mailbox st :
  reachable st →
  is_Some (mailbox (address st) st) ∧
  (∀ a, a ∈ (actors st).*1 → is_Some (mailbox a st)) ∧
  (∀ a a' arr, messages st !! a = Some arr → messages st !! a' = Some arr → a = a').
Proof.
  intros [Hwf _]%reachable_inv.
  assert (Hm : ∀ a, is_Some (messages st !! a) → is_Some (mailbox a st)).
  { intros a [arr Ha]. unfold mailbox. rewrite Ha.
    apply lookup_lt_is_Some. by eapply wf_map_valid. }
  split; [apply Hm, Hwf|]. split; [|apply Hwf].
  intros a Ha. by apply Hm, (wf_actors _ _ Hwf).
Qed.

(** ** index.ts: the registry *)

Lemma Map_set_NoDup {V : Type} (k : string) (v : V) (m : list (string * V)) :
  NoDup m.*1 → NoDup (Map_set k v m).*1.
Proof.
  induction m as [|[k' v'] m IH]; simpl.
  - intros _. apply NoDup_singleton.
  - rewrite NoDup_cons. intros [Hk Hm]. case_bool_decide as Hkk; simpl.
    + subst k'. by apply NoDup_cons.
    + apply NoDup_cons. split; [|by apply IH].
      rewrite Map_set_keys. intros [?|?]; [congruence | done].
Qed.

Lemma Map_set_elem {V : Type} (k : string) (v : V) (m : list (string * V)) k' v' :
  NoDup m.*1 →
  (k', v') ∈ Map_set k v m ↔ (k' = k ∧ v' = v) ∨ (k' ≠ k ∧ (k', v') ∈ m).
Proof.
  induction m as [|[k0 v0] m IH]; simpl.
  - intros _. rewrite list_elem_of_singleton, elem_of_nil. split.
    + intros [= -> ->]. by left.
    + intros [[-> ->]|[_ []]]. done.
  - rewrite NoDup_cons. intros [Hk0 Hm].
    assert (Hin : ∀ x, (k0, x) ∈ m → False).
    { intros x Hx. apply Hk0. apply list_elem_of_fmap. by exists (k0, x). }
    case_bool_decide as Hk; rewrite !elem_of_cons.
    + subst k0. split.
      * intros [[= -> ->]|Hx]; [by left|]. right. split; [|by right].
        intros ->. by eapply Hin.
      * intros [[-> ->]|[Hne [[= ? ?]|Hx]]]; [by left | done | by right].
    + rewrite (IH Hm). split.
      * intros [[= -> ->]|[[-> ->]|[Hne Hx]]].
        -- right. split; [congruence|]. by left.
        -- by left.
        -- right. split; [done|]. by right.
      * intros [[-> ->]|[Hne [[= -> ->]|Hx]]].
        -- right. by left.
        -- by left.
        -- right. right. by split.
Qed.

Lemma Map_set_keys_eq {V : Type} (k : string) (v : V) (m : list (string * V)) :
  (k ∈ m.*1 → (Map_set k v m).*1 = m.*1) ∧
  (k ∉ m.*1 → Map_set k v m = m ++ [(k, v)]).
Proof.
  induction m as [|[k0 v0] m [IH1 IH2]]; simpl.
  - split; [by intros ?%elem_of_nil | done].
  - case_bool_decide as Hk.
    + subst k0. split; [done|]. intros Hn. exfalso. apply Hn. by left.
    + split.
      * intros [?|Hin]%elem_of_cons; [done|]. by rewrite !fmap_cons, IH1.
      * intros Hn. rewrite IH2; [done|]. intros Hin. apply Hn. by right.
Qed.

Lemma apply_op_actors_NoDup o st st' :
  apply_op o st = Some st' → NoDup (actors st).*1 → NoDup (actors st').*1.
Proof.
  destruct o as [a actor | | act |]; simpl.
  - intros [= <-]. simpl. apply Map_set_NoDup.
  - destruct (start st) as [e|[st1 pair]] eqn:Hs; [done|]. intros [= <-].
    apply start_frame in Hs as [(_ & _ & ->) _]. done.
  - intros [= <-]. by rewrite (us_actors _ _ (exec_action_user_step act st)).
  - intros (_ & _ & ->)%tick_same_system. done.
Qed.

Lemma reachable_actors_NoDup st : reachable st → NoDup (actors st).*1.
Proof.
  intros (a0 & ops & Hrun).
  assert (H0 : NoDup (actors (@System_new T a0)).*1) by constructor.
  revert Hrun H0. generalize (@System_new T a0).
  induction ops as [|o ops IH]; intros s; simpl.
  - by intros [= <-].
  - destruct (apply_op o s) as [s1|] eqn:H1; [|done]. intros Hrun Hs.
    apply (IH s1 Hrun). by eapply apply_op_actors_NoDup.
Qed.

(** X5: in every state of a run the registry has one entry for each
    address.  [mount(a, actor)] makes [actor] the one actor at [a] (the
    last registration wins), leaves the entries of the other addresses as
    they are, keeps the place of [a] in the order of the keys if [a] was
    there, and puts [a] last if it was not. *)
Theorem mount_last_wins st a actor :
  reachable st →
  NoDup (actors st).*1 ∧
  NoDup (actors (mount a actor st)).*1 ∧
  (∀ actor', (a, actor') ∈ actors (mount a actor st) ↔ actor' = actor) ∧
  (∀ a' x, a' ≠ a → (a', x) ∈ actors (mount a actor st) ↔ (a', x) ∈ actors st) ∧
  (a ∈ (actors st).*1 → (actors (mount a actor st)).*1 = (actors st).*1) ∧
  (a ∉ (actors st).*1 → actors (mount a actor st) = actors st ++ [(a, actor)]).
Proof.
  intros Hnd%reachable_actors_NoDup. simpl.
  split; [done|]. split; [by apply Map_set_NoDup|]. split; [|split].
  - intros actor'. rewrite Map_set_elem by done. split.
    + intros [[_ ->]|[Hne _]]; done.
    + intros ->. by left.
  - intros a' x Hne. rewrite Map_set_elem by done. split.
    + intros [[-> _]|[_ Hx]]; done.
    + intros Hx. right. by split.
  - apply Map_set_keys_eq.
Qed.

(** ** index.ts: the turn of a send *)

(** X6: in every state of a run, the turn in which the timer of a
    [Sender.send] fires is one call of the router on the envelope
    [{from: address, to, value}]: the envelope goes to the tail of the
    mailbox of [to], or, when [to] has no entry in [messages], the state
    is only short of that timer; no callback of an addressed receiver
    and no [run] is called in that turn, and no timer is created. *)
Theorem send_timer_turn st ms this dest v rest :
  reachable st →
  timers st = (ms, TSubmit this dest v) :: rest →
  let envelope := mkSystemMessage (Sender_address this) dest v in
  ms = 1 ∧
  tick st = Some (router envelope (set_timers rest st)) ∧
  (∀ st', tick st = Some st' →
     timers st' = rest ∧ trace st' = trace st ∧
     receivers st' = receivers st ∧ started st' = started st) ∧
  (∀ arr l, messages st !! dest = Some arr → arrays st !! arr = Some l →
     ∃ st', tick st = Some st' ∧ mailbox dest st' = Some (l ++ [envelope])) ∧
  (messages st !! dest = None → tick st = Some (set_timers rest st)).
Proof.
  intros [Hwf _]%reachable_inv Ht envelope.
  assert (Hr : is_router (Channel.receiver (Sender_sender this)) (set_timers rest st)).
  { apply (wf_submit _ _ Hwf ms this dest v). rewrite Ht. by left. }
  assert (Htick : tick st = Some (router envelope (set_timers rest st))).
  { unfold tick. rewrite Ht. unfold fire.
    by rewrite (ChannelSender_send_router _ _ _ Hr). }
  split; [apply (wf_delay _ _ Hwf ms (TSubmit this dest v)); rewrite Ht; by left|].
  split; [done|]. rewrite Htick. split; [|split].
  - intros st' [= <-]. unfold router. simpl.
    by destruct (messages st !! dest).
  - intros arr l Hm Hl. eexists. split; [done|].
    unfold mailbox, router. simpl. rewrite Hm. simpl. rewrite Hm.
    by rewrite list_lookup_alter_eq, Hl.
  - intros Hm. unfold router. simpl. by rewrite Hm.
Qed.

(** ** index.ts: order and polling *)

(** X7: in every state of a run, what the callback of a receiver was
    called with is, envelope by envelope and in this order, a
    subsequence of all calls of [Sender.send] in the order in which they
    were made, whatever their senders: with timers of one delay, the
    order between two sources is the order of their sends. *)
Theorem receiver_sees_global_order st rid :
  reachable st →
  delivered_to rid (trace st) `sublist_of` sends (trace st).
Proof. intros [_ Ho]%reachable_inv. apply Ho. Qed.

(** X12: in every state of a run, a drain loop whose cycle ends with
    [started] true has set the timer of its next cycle, which is then
    the newest timer: the loop polls for as long as [started] holds. *)
Theorem loop_keeps_polling st ms arr tx1 rest :
  reachable st →
  timers st = (ms, TLoopWake arr tx1) :: rest →
  ∃ st', tick st = Some st' ∧
         (started st' = true →
            last (timers st') = Some (1, TLoopWake arr tx1)) ∧
         (started st' = false → no_loop (Channel.receiver tx1) st').
Proof.
  intros [Hwf _]%reachable_inv Ht.
  destruct (tick_wake st ms arr tx1 rest Hwf Ht)
    as (rid & st' & new & Hf & Htick & _ & _ & Hnew & Htm & _).
  exists st'. split; [done|]. split.
  - intros Hst. rewrite Htm, Hst, !app_assoc. apply last_snoc.
  - intros Hst. intros t. rewrite Htm, Hst, app_nil_r, fmap_app, elem_of_app.
    intros [Hin|Hin].
    + pose proof (wf_loops_nodup _ _ Hwf) as Hn. unfold tasks in Hn.
      rewrite Ht, app_nil_r in Hn. simpl in Hn.
      apply NoDup_cons in Hn as [Hn _]. intros Hc. apply Hn.
      apply list_elem_of_omap. by exists t.
    + apply Hnew in Hin. congruence.
Qed.

(** ** index.ts: no envelope twice *)

Lemma concat_insert_cons {A : Type} (ls : list (list A)) i x rest :
  ls !! i = Some (x :: rest) → concat ls ≡ₚ x :: concat (<[i := rest]> ls).
Proof.
  revert i. induction ls as [|l ls IH]; intros i Hi; [done|].
  destruct i as [|i]; simpl in *.
  - by injection Hi as ->.
  - rewrite (IH i Hi). by rewrite Permutation_middle.
Qed.

Lemma concat_alter_snoc {A : Type} (ls : list (list A)) i x :
  i < length ls → concat (alter (λ l, l ++ [x]) i ls) ≡ₚ x :: concat ls.
Proof.
  revert i. induction ls as [|l ls IH]; intros i Hi; simpl in Hi; [lia|].
  destruct i as [|i]; simpl.
  - rewrite <- app_assoc. simpl. by rewrite <- Permutation_middle.
  - rewrite (IH i) by lia. by rewrite <- Permutation_middle.
Qed.

Lemma user_step_ledger st st' :
  user_step st st' →
  ∃ new, ledger st' = ledger st ++ new ∧
         sends (trace st') = sends (trace st) ++ new.
Proof.
  intros Hu. destruct (user_step_new_tasks _ _ Hu) as (new & Ht & Htr & _).
  exists (submits new). unfold ledger.
  rewrite (user_step_deliveries _ _ Hu), (us_arrays _ _ Hu), Ht, Htr.
  rewrite submits_app, sends_app, sends_ESend, !app_assoc. done.
Qed.

Lemma user_step_accounted st st' :
  user_step st st' → ledger st ⊆+ sends (trace st) →
  ledger st' ⊆+ sends (trace st').
Proof.
  intros (new & -> & ->)%user_step_ledger H. by apply submseteq_app.
Qed.

(** The envelope [m] is in hand: a raw sender passes it on. *)
Lemma ChannelSender_send_accounted st tx m :
  m :: ledger st ⊆+ sends (trace st) →
  ledger (ChannelSender_send tx m st) ⊆+ sends (trace (ChannelSender_send tx m st)).
Proof.
  intros H.
  assert (H0 : ledger st ⊆+ sends (trace st)).
  { etrans; [|apply H]. by apply submseteq_cons. }
  unfold ChannelSender_send, Channel.dispatch.
  destruct (channels st !! Channel.receiver tx) as [r|]; [|done].
  destruct (Channel.func r) as [[|this]|]; simpl; [| |done].
  - unfold router. destruct (messages st !! to m) as [arr|]; [|done].
    unfold ledger. simpl.
    destruct (decide (arr < length (arrays st))) as [Hlt|Hge].
    + rewrite concat_alter_snoc by done. simpl.
      etrans; [|apply H]. unfold ledger.
      by rewrite <- Permutation_middle.
    + assert (alter (λ l, l ++ [m]) arr (arrays st) = arrays st) as ->; [|done].
      apply list_eq. intros i. rewrite list_lookup_alter.
      case_decide; [subst i|done]. by rewrite (lookup_ge_None_2 (arrays st)) by lia.
  - unfold forward. destruct (receivers st !! this) as [R|]; [|done].
    apply (user_step_accounted (log (EDeliver this m) st));
      [apply exec_actions_user_step|].
    unfold ledger. simpl. rewrite deliveries_app, sends_app, fmap_app. simpl.
    rewrite app_nil_r. etrans; [|apply H]. unfold ledger.
    rewrite <- app_assoc. simpl. by rewrite <- Permutation_middle.
Qed.

Lemma drain_accounted arr tx1 fuel : ∀ st st',
  drain fuel arr tx1 st = Some st' →
  ledger st ⊆+ sends (trace st) → ledger st' ⊆+ sends (trace st').
Proof.
  induction fuel as [|fuel IH]; intros st st'; [done|]. simpl.
  destruct (arrays st !! arr) as [[|m rest]|] eqn:Harr;
    try (by intros [= <-]).
  intros Hd H. apply (IH _ _ Hd). apply ChannelSender_send_accounted.
  etrans; [|apply H]. unfold ledger. simpl.
  rewrite (concat_insert_cons (arrays st) arr m rest Harr). simpl.
  by rewrite <- Permutation_middle.
Qed.

Lemma tick_accounted st st' :
  tick st = Some st' →
  ledger st ⊆+ sends (trace st) → ledger st' ⊆+ sends (trace st').
Proof.
  unfold tick. destruct (timers st) as [|[ms t] rest] eqn:Ht; [by intros [= <-]|].
  set (st0 := set_timers rest st).
  assert (Hl : ∀ arr tx1 (s : State T),
            ledger s ⊆+ sends (trace s) →
            ledger (loop_head arr tx1 s) ⊆+ sends (trace (loop_head arr tx1 s))).
  { intros arr tx1 s Hs. unfold loop_head. destruct (started s); [|done].
    unfold ledger. simpl. rewrite submits_app. simpl. by rewrite app_nil_r. }
  destruct t as [this dest v | a tx1 | arr tx1]; unfold fire; intros Hf H.
  - injection Hf as <-. apply ChannelSender_send_accounted.
    etrans; [|apply H]. unfold ledger. rewrite Ht. simpl.
    by rewrite <- !Permutation_middle.
  - assert (H0 : ledger st0 ⊆+ sends (trace st0)).
    { unfold ledger in *. by rewrite Ht in H. }
    destruct (messages st0 !! a); injection Hf as <-; [by apply Hl | done].
  - assert (H0 : ledger st0 ⊆+ sends (trace st0)).
    { unfold ledger in *. by rewrite Ht in H. }
    destruct (drain _ arr tx1 st0) as [st1|] eqn:Hd; [|done]. injection Hf as <-.
    apply Hl. by eapply drain_accounted.
Qed.

Lemma start_actors_from_accounted (l : list (string * Actor T)) : ∀ st st',
  start_actors_from l st = inr st' →
  ledger st ⊆+ sends (trace st) → ledger st' ⊆+ sends (trace st').
Proof.
  induction l as [|[a actor] l IH]; intros st st'; simpl; [by intros [= <-]|].
  rewrite start_actor_eq.
  set (s := length (senders st)). set (r := length (receivers st)).
  set (st0 := log (ERun a actor s r) (wire a st)).
  pose proof (exec_actions_user_step (run actor s r) st0) as Hu.
  intros Hs H. apply (IH _ _ Hs).
  assert (H0 : ledger st0 ⊆+ sends (trace st0)).
  { unfold ledger in *. simpl. by rewrite deliveries_app, sends_app, !app_nil_r. }
  apply (user_step_accounted _ _ Hu) in H0.
  unfold ledger in *. simpl. rewrite submits_app. simpl. by rewrite app_nil_r.
Qed.

Lemma apply_op_accounted o st st' :
  apply_op o st = Some st' →
  ledger st ⊆+ sends (trace st) → ledger st' ⊆+ sends (trace st').
Proof.
  destruct o as [a actor | | act |]; simpl.
  - intros [= <-] H. unfold ledger in *. simpl. rewrite concat_app. simpl.
    by rewrite app_nil_r.
  - unfold start, start_actors.
    destruct (start_actors_from (actors (set_started true st)) (set_started true st))
      as [e|st1] eqn:Hs; [done|].
    rewrite start_system_eq. intros [= <-] H.
    apply (start_actors_from_accounted _ _ _ Hs) in H.
    unfold ledger in *. simpl. rewrite submits_app. simpl. by rewrite app_nil_r.
  - intros [= <-]. apply user_step_accounted, exec_action_user_step.
  - apply tick_accounted.
Qed.

(** X8: in every state of a run, the envelopes that were handed to the
    callbacks of all receivers, with those that wait in the arrays and
    those of the pending [Sender.send] timers, are together a
    sub-multiset of the envelopes that were sent: no envelope is handed
    to a callback more often than it was sent, whatever the number of
    drain loops on its mailbox. *)
Theorem no_envelope_twice st :
  reachable st →
  (deliveries (trace st)).*2 ++ concat (arrays st) ++ submits (timers st)
    ⊆+ sends (trace st).
Proof.
  intros (a0 & ops & Hrun). change (ledger st ⊆+ sends (trace st)).
  assert (H0 : ledger (@System_new T a0) ⊆+ sends (trace (@System_new T a0))) by done.
  revert Hrun H0. generalize (@System_new T a0).
  induction ops as [|o ops IH]; intros s; simpl.
  - by intros [= <-].
  - destruct (apply_op o s) as [s1|] eqn:H1; [|done]. intros Hrun Hs.
    apply (IH s1 Hrun). by eapply apply_op_accounted.
Qed.

(** ** index.ts: the [from] of an envelope *)

Lemma user_step_replyable st st' : user_step st st' → replyable st → replyable st'.
Proof.
  intros Hu [H1 H2].
  destruct (user_step_new_tasks _ _ Hu) as (new & Ht & Htr & _ & Hnew).
  split.
  - rewrite (us_senders _ _ Hu), (us_messages _ _ Hu). apply H1.
  - intros m. rewrite Htr, sends_app, sends_ESend, elem_of_app, (us_messages _ _ Hu).
    intros [Hm|Hm]; [by apply H2|].
    apply list_elem_of_omap in Hm as ([ms t] & Hin & Hm).
    destruct (Hnew _ _ Hin) as (_ & s & this & dest & v & -> & Hs).
    simpl in Hm. injection Hm as <-. simpl. by eapply H1.
Qed.

Lemma ChannelSender_send_replyable st tx m :
  replyable st → replyable (ChannelSender_send tx m st).
Proof.
  intros H. unfold ChannelSender_send, Channel.dispatch.
  destruct (channels st !! Channel.receiver tx) as [r|]; [|done].
  destruct (Channel.func r) as [[|this]|]; simpl; [| |done].
  - unfold router. destruct (messages st !! to m); [|done]. split; apply H.
  - unfold forward. destruct (receivers st !! this) as [R|]; [|done].
    eapply user_step_replyable; [apply exec_actions_user_step|].
    destruct H as [H1 H2]. split; [done|]. simpl. intros m'.
    rewrite sends_app, app_nil_r. apply H2.
Qed.

Lemma drain_replyable arr tx1 fuel : ∀ st st',
  drain fuel arr tx1 st = Some st' → replyable st → replyable st'.
Proof.
  induction fuel as [|fuel IH]; intros st st'; [done|]. simpl.
  destruct (arrays st !! arr) as [[|m rest]|]; try (by intros [= <-]).
  intros Hd H. apply (IH _ _ Hd), ChannelSender_send_replyable.
  split; apply H.
Qed.

Lemma tick_replyable st st' : tick st = Some st' → replyable st → replyable st'.
Proof.
  unfold tick. destruct (timers st) as [|[ms t] rest]; [by intros [= <-]|].
  set (st0 := set_timers rest st). intros Hf H.
  assert (H0 : replyable st0) by (split; apply H).
  assert (Hl : ∀ arr tx1 (s : State T), replyable s → replyable (loop_head arr tx1 s)).
  { intros arr tx1 s Hs. unfold loop_head. destruct (started s); [|done].
    split; apply Hs. }
  destruct t as [this dest v | a tx1 | arr tx1]; unfold fire in Hf.
  - injection Hf as <-. by apply ChannelSender_send_replyable.
  - destruct (messages st0 !! a); injection Hf as <-; [by apply Hl | done].
  - destruct (drain _ arr tx1 st0) as [st1|] eqn:Hd; [|done]. injection Hf as <-.
    apply Hl. by eapply drain_replyable.
Qed.

Lemma wire_replyable a st :
  is_Some (messages st !! a) → replyable st → replyable (wire a st).
Proof.
  intros Ha [H1 H2]. split; [|done]. simpl.
  intros s this [Hs|[_ Hs]]%lookup_app_Some; [by eapply H1|].
  destruct (s - length (senders st)) as [|n]; simpl in Hs; [|done].
  by injection Hs as <-.
Qed.

Lemma start_actors_from_replyable (l : list (string * Actor T)) : ∀ st st',
  (∀ a, a ∈ l.*1 → is_Some (messages st !! a)) →
  start_actors_from l st = inr st' → replyable st → replyable st'.
Proof.
  induction l as [|[a actor] l IH]; intros st st' Hl; simpl; [by intros [= <-]|].
  rewrite start_actor_eq.
  set (s := length (senders st)). set (r := length (receivers st)).
  set (st0 := log (ERun a actor s r) (wire a st)).
  pose proof (exec_actions_user_step (run actor s r) st0) as Hu.
  intros Hs H. apply (IH _ _) in Hs; [done| |].
  - intros a' Ha'. simpl. rewrite (us_messages _ _ Hu). simpl. apply Hl. by right.
  - assert (H0 : replyable st0).
    { destruct (wire_replyable a st (Hl a ltac:(by left)) H) as [H1 H2].
      split; [done|]. simpl. intros m. rewrite sends_app, app_nil_r. apply H2. }
    apply (user_step_replyable _ _ Hu) in H0. split; apply H0.
Qed.

Lemma apply_op_replyable o st st' :
  wf [] st → apply_op o st = Some st' → replyable st → replyable st'.
Proof.
  intros Hwf. destruct o as [a actor | | act |]; simpl.
  - intros [= <-] [H1 H2]. split; simpl.
    + intros s this Hs. apply lookup_insert_is_Some'. right. by eapply H1.
    + intros m Hm. apply lookup_insert_is_Some'. right. by apply H2.
  - unfold start, start_actors.
    destruct (start_actors_from (actors (set_started true st)) (set_started true st))
      as [e|st1] eqn:Hs; [done|].
    rewrite start_system_eq. intros [= <-] H.
    pose proof (start_actors_from_frame _ _ _ Hs) as [(Ha & Hm & _) _].
    apply (start_actors_from_replyable _ _ _) in Hs.
    + assert (Hown : is_Some (messages st1 !! address st1)).
      { rewrite Hm, Ha. apply (wf_own _ _ Hwf). }
      destruct (wire_replyable _ _ Hown Hs) as [H1 H2]. by split.
    + apply (wf_actors _ _ Hwf).
    + split; apply H.
  - intros [= <-]. apply user_step_replyable, exec_action_user_step.
  - apply tick_replyable.
Qed.

Lemma reachable_replyable st : reachable st → replyable st.
Proof.
  intros (a0 & ops & Hrun).
  assert (H0 : replyable (@System_new T a0)).
  { split; simpl; [done|]. intros m Hm. by apply elem_of_nil in Hm. }
  pose proof (System_new_wf a0 : wf [] (@System_new T a0)) as Hwf.
  pose proof (System_new_ordered a0 : ordered [] (@System_new T a0)) as Ho.
  revert Hrun H0 Hwf Ho. generalize (@System_new T a0).
  induction ops as [|o ops IH]; intros s; simpl.
  - by intros [= <-].
  - intros Hrun Hs Hwf Ho.
    destruct (apply_op_inv o s Hwf Ho) as (s1 & H1 & Hwf1 & Ho1).
    rewrite H1 in Hrun. apply (IH s1 Hrun); [|done..].
    exact (apply_op_replyable o s s1 Hwf H1 Hs).
Qed.

(** X9: in every state of a run, every addressed sender of the store is
    bound to an address that has a mailbox, so the [from] of every
    envelope a callback was called with has one: the router does not
    drop an answer that is sent to [from], it puts it at the tail of
    that mailbox. *)
Theorem from_has_mailbox st :
  reachable st →
  (∀ s this, senders st !! s = Some this →
     is_Some (mailbox (Sender_address this) st)) ∧
  (∀ rid m, m ∈ delivered_to rid (trace st) →
     ∃ l, mailbox (from m) st = Some l ∧
          ∀ s this v, senders st !! s = Some this →
            mailbox (from m)
              (router (mkSystemMessage (Sender_address this) (from m) v) st)
              = Some (l ++ [mkSystemMessage (Sender_address this) (from m) v])).
Proof.
  intros Hr. destruct (reachable_inv st Hr) as [Hwf Ho].
  destruct (reachable_replyable st Hr) as [H1 H2].
  assert (Hm : ∀ a, is_Some (messages st !! a) →
            ∃ arr l, messages st !! a = Some arr ∧ arrays st !! arr = Some l).
  { intros a [arr Ha]. exists arr.
    destruct (lookup_lt_is_Some_2 (arrays st) arr) as [l Hl];
      [by eapply wf_map_valid|]. by exists l. }
  split.
  - intros s this Hs. destruct (Hm _ (H1 s this Hs)) as (arr & l & Ha & Hl).
    unfold mailbox. by rewrite Ha, Hl.
  - intros rid m Hin.
    assert (m ∈ sends (trace st)) as Hs.
    { eapply sublist_subseteq; [apply (ord_any _ _ Ho rid) | done]. }
    destruct (Hm _ (H2 m Hs)) as (arr & l & Ha & Hl). exists l.
    split; [unfold mailbox; by rewrite Ha, Hl|].
    intros s this v _. unfold mailbox, router. simpl. rewrite Ha. simpl.
    rewrite Ha. by rewrite list_lookup_alter_eq, Hl.
Qed.

(** ** index.ts: envelopes reach the address they name *)

Lemma user_step_receiver st st' rid this' :
  user_step st st' → receivers st' !! rid = Some this' →
  ∃ this, receivers st !! rid = Some this ∧
          Receiver_address this = Receiver_address this'.
Proof.
  intros Hu Hr.
  assert (((λ r, (Receiver_address r, Receiver_receiver r)) <$> receivers st) !! rid
          = Some (Receiver_address this', Receiver_receiver this')) as H.
  { by rewrite <- (us_receiver_objs _ _ Hu), list_lookup_fmap, Hr. }
  rewrite list_lookup_fmap in H. destruct (receivers st !! rid) as [this|]; [|done].
  injection H as H1 H2. by exists this.
Qed.

Lemma deliveries_delivered_to rid m (tr : list (Event T)) :
  (rid, m) ∈ deliveries tr → m ∈ delivered_to rid tr.
Proof.
  intros Hin. rewrite delivered_to_deliveries. apply list_elem_of_omap.
  exists (rid, m). split; [done|]. simpl. by rewrite decide_True.
Qed.

Lemma user_step_routed extra st st' :
  user_step st st' → routed extra st → routed extra st'.
Proof.
  intros Hu [H1 H2 H3 H4]. split.
  - intros a arr m. rewrite (us_messages _ _ Hu), (user_step_content st st') by done.
    apply H1.
  - intros arr tx1 rid this' Hin Hf Hr.
    destruct (user_step_receiver _ _ _ _ Hu Hr) as (this & Hr0 & <-).
    rewrite (us_messages _ _ Hu), (user_step_content st st') by done.
    apply (H2 arr tx1 rid this); [|by apply (user_step_forwards_to st st')|done].
    eapply user_step_loop_task; done.
  - intros a tx1 rid this' Hin Hf Hr.
    destruct (user_step_receiver _ _ _ _ Hu Hr) as (this & Hr0 & <-).
    apply (H3 a tx1 rid this); [|by apply (user_step_forwards_to st st')|done].
    eapply user_step_loop_task; done.
  - intros rid m this' Hin Hr.
    destruct (user_step_receiver _ _ _ _ Hu Hr) as (this & Hr0 & <-).
    rewrite (user_step_deliveries _ _ Hu) in Hin. by eapply H4.
Qed.

Lemma routed_change_tasks extra extra' st tms' :
  routed extra st →
  (∀ t, t ∈ tasks extra' (set_timers tms' st) → is_Some (loop_chan t) →
        t ∈ tasks extra st) →
  routed extra' (set_timers tms' st).
Proof.
  intros [H1 H2 H3 H4] Hloop. split; [done| | |done].
  - intros arr tx1 rid this Hin Hf Hr. apply (H2 arr tx1 rid this); [|done..].
    by apply Hloop.
  - intros a tx1 rid this Hin Hf Hr. apply (H3 a tx1 rid this); [|done..].
    by apply Hloop.
Qed.

Lemma routed_pop extra st ms t rest :
  timers st = (ms, t) :: rest → routed extra st →
  routed (t :: extra) (set_timers rest st).
Proof.
  intros Ht H. apply (routed_change_tasks extra); [done|].
  intros t' Hin _. by rewrite <- (tasks_pop extra st ms t rest).
Qed.

Lemma routed_push extra st t :
  routed (t :: extra) st → routed extra (setTimeout t 1 st).
Proof.
  intros H. apply (routed_change_tasks (t :: extra)); [done|].
  intros t' Hin _. by rewrite <- (tasks_push extra st t).
Qed.

Lemma routed_drop extra st t : routed (t :: extra) st → routed extra st.
Proof.
  intros H.
  assert (Hst : set_timers (timers st) st = st) by by destruct st.
  rewrite <- Hst. apply (routed_change_tasks (t :: extra)); [done|].
  rewrite Hst. intros t' Hin _. apply tasks_cons_elem. by right.
Qed.

Lemma routed_loop_begin extra st a tx1 arr :
  messages st !! a = Some arr →
  wf (TLoopStart a tx1 :: extra) st →
  routed (TLoopStart a tx1 :: extra) st → routed (TLoopWake arr tx1 :: extra) st.
Proof.
  intros Ha Hwf [H1 H2 H3 H4].
  assert (Hhd : TLoopStart a tx1 ∈ tasks (TLoopStart a tx1 :: extra) st).
  { apply tasks_cons_elem. by left. }
  split; [done| | |done].
  - intros arr' tx' rid this [[= -> ->]|Ht]%tasks_cons_elem Hf Hr.
    + rewrite (H3 a tx1 rid this Hhd Hf Hr). split.
      * intros m Hm. by apply (H1 a arr).
      * intros a' Ha'. by apply (wf_map_inj _ _ Hwf a' a arr).
    + apply (H2 arr' tx' rid this); [|done..]. apply tasks_cons_elem. by right.
  - intros a' tx' rid this [?|Ht]%tasks_cons_elem Hf Hr; [done|].
    apply (H3 a' tx' rid this); [|done..]. apply tasks_cons_elem. by right.
Qed.

Lemma elem_of_content_router st m arr m' :
  m' ∈ content arr (router m st) →
  m' ∈ content arr st ∨ (m' = m ∧ messages st !! to m = Some arr).
Proof.
  unfold router, content. destruct (messages st !! to m) as [arr'|] eqn:Hm; [|by left].
  simpl. destruct (decide (arr' = arr)) as [->|Hne].
  - rewrite list_lookup_alter_eq. destruct (arrays st !! arr) as [l|]; simpl; [|by left].
    rewrite elem_of_app, list_elem_of_singleton. intros [?| ->]; [by left | by right].
  - rewrite list_lookup_alter_ne by done. by left.
Qed.

Lemma router_routed extra st m :
  wf extra st → routed extra st → routed extra (router m st).
Proof.
  intros Hwf [H1 H2 H3 H4].
  assert (Hsame : messages (router m st) = messages st ∧
                  timers (router m st) = timers st ∧
                  channels (router m st) = channels st ∧
                  receivers (router m st) = receivers st ∧
                  trace (router m st) = trace st).
  { unfold router. by destruct (messages st !! to m). }
  destruct Hsame as (Hm & Ht & Hc & Hr & Htr).
  assert (Htk : tasks extra (router m st) = tasks extra st).
  { unfold tasks. by rewrite Ht. }
  assert (Hfw : ∀ c rid, forwards_to c rid (router m st) ↔ forwards_to c rid st).
  { intros c rid. unfold forwards_to. by rewrite Hc. }
  split.
  - intros a arr m'. rewrite Hm. intros Ha [Hin|[-> Hmto]]%elem_of_content_router.
    + by apply (H1 a arr).
    + by apply (wf_map_inj _ _ Hwf (to m) a arr).
  - intros arr tx1 rid this. rewrite Htk, Hfw, Hr, Hm. intros Hin Hf Hrc.
    destruct (H2 arr tx1 rid this Hin Hf Hrc) as [Ha Hb]. split; [|done].
    intros m' [Hin'|[-> Hmto]]%elem_of_content_router; [by apply Ha | by apply Hb].
  - intros a tx1 rid this. rewrite Htk, Hfw, Hr. apply H3.
  - intros rid m' this. rewrite Htr, Hr. apply H4.
Qed.

Lemma shift_routed extra st arr tx1 rid m rest :
  wf extra st → ordered extra st → routed extra st →
  TLoopWake arr tx1 ∈ tasks extra st →
  forwards_to (Channel.receiver tx1) rid st →
  arrays st !! arr = Some (m :: rest) →
  routed extra (log (EDeliver rid m) (set_arrays (<[arr := rest]> (arrays st)) st)).
Proof.
  intros Hwf Ho [H1 H2 H3 H4] Hin Hf Harr.
  set (st1 := log (EDeliver rid m) (set_arrays (<[arr := rest]> (arrays st)) st)).
  assert (Hc : ∀ arr' m', m' ∈ content arr' st1 → m' ∈ content arr' st).
  { intros arr' m'. unfold content. simpl.
    destruct (decide (arr' = arr)) as [->|Hne].
    - rewrite list_lookup_insert_eq by (by eapply lookup_lt_Some).
      rewrite Harr. simpl. intros ?. by right.
    - by rewrite list_lookup_insert_ne. }
  assert (Hm : m ∈ content arr st).
  { unfold content. rewrite Harr. by left. }
  split.
  - intros a arr' m' Ha Hm'. apply (H1 a arr'); [done|]. by apply Hc.
  - intros arr' tx' rid' this Hin' Hf' Hr.
    destruct (H2 arr' tx' rid' this Hin' Hf' Hr) as [Ha Hb]. split; [|done].
    intros m' Hm'. by apply Ha, Hc.
  - apply H3.
  - intros rid' m' this. simpl. rewrite deliveries_app, elem_of_app. simpl.
    rewrite list_elem_of_singleton. intros [Hd|[= -> ->]] Hr; [by eapply H4|].
    destruct (H2 arr tx1 rid this Hin Hf Hr) as [Ha _]. by apply Ha.
Qed.

Lemma drain_routed extra arr tx1 fuel : ∀ st st',
  TLoopWake arr tx1 ∈ extra →
  wf extra st → ordered extra st → routed extra st →
  drain fuel arr tx1 st = Some st' → routed extra st'.
Proof.
  induction fuel as [|fuel IH]; intros st st' Hex Hwf Ho Hrt; [done|]. simpl.
  destruct (arrays st !! arr) as [[|m rest]|] eqn:Harr;
    try (by intros [= <-]).
  assert (Hin : TLoopWake arr tx1 ∈ tasks extra st).
  { unfold tasks. apply elem_of_app. by right. }
  destruct (wf_loops _ _ Hwf _ _ Hin eq_refl) as [rid Hf].
  set (st0 := set_arrays (<[arr := rest]> (arrays st)) st).
  assert (Hf0 : forwards_to (Channel.receiver tx1) rid st0) by done.
  rewrite (ChannelSender_send_forward st0 tx1 rid m Hf0).
  assert (Hlt : rid < length (receivers st0)) by by apply (wf_forward _ _ Hwf _ _ Hf).
  apply lookup_lt_is_Some in Hlt as [r Hr].
  unfold forward. rewrite Hr.
  pose proof (exec_actions_user_step (Receiver_func r (from m) (value m))
                (log (EDeliver rid m) st0)) as Hu.
  apply IH; [done|..].
  - eapply user_step_wf; [done|]. by apply shift_wf.
  - eapply user_step_ordered; [done|]. by eapply shift_ordered.
  - eapply user_step_routed; [done|]. by eapply shift_routed.
Qed.

Lemma wire_routed extra a st :
  wf extra st → ordered extra st → routed extra st →
  routed (TLoopStart a (Channel.mkChannelSender (S (length (channels st)))) :: extra)
         (wire a st).
Proof.
  intros Hwf Ho [H1 H2 H3 H4].
  assert (Hold : ∀ t c rid, t ∈ tasks extra st → loop_chan t = Some c →
                   forwards_to c rid (wire a st) → forwards_to c rid st).
  { intros t c rid Ht Hc [Hf|[-> _]]%forwards_to_wire; [done|].
    destruct (wf_loops _ _ Hwf t _ Ht Hc) as [rid' Hf].
    apply forwards_to_lt in Hf. lia. }
  assert (Hrc : ∀ rid this, rid < length (receivers st) →
            receivers (wire a st) !! rid = Some this → receivers st !! rid = Some this).
  { intros rid this Hlt. simpl. by rewrite lookup_app_l. }
  split; [done| | |].
  - intros arr tx1 rid this [?|Ht]%tasks_cons_elem Hf Hr; [done|].
    apply (Hold _ _ _ Ht eq_refl) in Hf.
    apply (H2 arr tx1 rid this); [done..|].
    apply Hrc; [by eapply wf_forward | done].
  - intros a' tx1 rid this [[= -> ->]|Ht]%tasks_cons_elem Hf Hr.
    + apply forwards_to_wire in Hf as [Hf|[_ ->]].
      * apply forwards_to_lt in Hf. simpl in Hf. lia.
      * simpl in Hr. rewrite lookup_snoc_length in Hr. by injection Hr as <-.
    + apply (Hold _ _ _ Ht eq_refl) in Hf.
      apply (H3 a' tx1 rid this); [done..|].
      apply Hrc; [by eapply wf_forward | done].
  - intros rid m this Hin Hr.
    destruct (decide (rid < length (receivers st))) as [Hlt|Hge].
    + apply (H4 rid m this); [done|]. by apply Hrc.
    + apply deliveries_delivered_to in Hin. simpl in Hin.
      rewrite (ord_fresh _ _ Ho rid) in Hin by lia. by apply elem_of_nil in Hin.
Qed.

Lemma log_run_routed extra st a actor s r :
  routed extra st → routed extra (log (ERun a actor s r) st).
Proof.
  intros [H1 H2 H3 H4]. split; try done.
  intros rid m this. simpl. rewrite deliveries_app, app_nil_r. apply H4.
Qed.

Lemma set_started_routed extra st x : routed extra st → routed extra (set_started x st).
Proof. intros H. split; apply H. Qed.

Lemma mount_routed extra a actor st :
  wf extra st → routed extra st → routed extra (mount a actor st).
Proof.
  intros Hwf [H1 H2 H3 H4]. split; [| |done..].
  - intros a' arr m. rewrite content_mount. unfold mount. simpl.
    rewrite lookup_insert. case_decide as Ha.
    + intros [= <-]. unfold content. simpl.
      rewrite (lookup_ge_None_2 (arrays st)) by lia. by intros ?%elem_of_nil.
    + apply H1.
  - intros arr tx1 rid this Hin Hf Hr.
    destruct (H2 arr tx1 rid this Hin Hf Hr) as [Ha Hb]. split.
    + intros m. rewrite content_mount. apply Ha.
    + intros a'. unfold mount. simpl. rewrite lookup_insert. case_decide as Ha'.
      * intros [= Heq]. pose proof (wf_loop_wake _ _ Hwf arr tx1 Hin).
        simpl in Heq. lia.
      * apply Hb.
Qed.

Lemma System_new_routed a0 : routed [] (@System_new T a0).
Proof.
  split; simpl.
  - intros a arr m [_ <-]%lookup_singleton_Some. unfold content. simpl.
    by intros ?%elem_of_nil.
  - intros arr tx1 rid this Hin. by apply elem_of_nil in Hin.
  - intros a tx1 rid this Hin. by apply elem_of_nil in Hin.
  - intros rid m this Hin. by apply elem_of_nil in Hin.
Qed.

Lemma loop_head_routed st arr tx1 :
  routed [TLoopWake arr tx1] st → routed [] (loop_head arr tx1 st).
Proof.
  intros H. unfold loop_head. destruct (started st).
  - by apply routed_push.
  - by eapply routed_drop.
Qed.

Lemma tick_routed st st' :
  wf [] st → ordered [] st → routed [] st → tick st = Some st' → routed [] st'.
Proof.
  intros Hwf Ho Hrt. unfold tick.
  destruct (timers st) as [|[ms t] rest] eqn:Ht; [by intros [= <-]|].
  set (st0 := set_timers rest st).
  pose proof (wf_pop [] st ms t rest Ht Hwf) as Hwf0. fold st0 in Hwf0.
  pose proof (routed_pop [] st ms t rest Ht Hrt) as Hrt0. fold st0 in Hrt0.
  destruct t as [this dest v | a tx1 | arr tx1]; unfold fire.
  - intros [= <-].
    assert (Hr : is_router (Channel.receiver (Sender_sender this)) st0).
    { apply (wf_submit _ _ Hwf ms this dest v). rewrite Ht. by left. }
    rewrite (ChannelSender_send_router _ _ _ Hr).
    apply router_routed; [by eapply wf_drop | by eapply routed_drop].
  - change (messages st0) with (messages st).
    destruct (messages st !! a) as [arr|] eqn:Ha; intros [= <-].
    + apply loop_head_routed. by apply (routed_loop_begin [] st0 a tx1 arr).
    + by eapply routed_drop.
  - pose proof (ordered_pop [] st ms _ rest Ht (mk_is_Some _ _ eq_refl) Ho) as Ho0.
    fold st0 in Ho0.
    destruct (drain _ arr tx1 st0) as [st1|] eqn:Hd; [|done]. intros [= <-].
    apply loop_head_routed.
    eapply (drain_routed [TLoopWake arr tx1]); [by left|done..].
Qed.

Lemma start_actors_from_routed (l : list (string * Actor T)) : ∀ st st',
  (∀ a, a ∈ l.*1 → is_Some (messages st !! a)) →
  wf [] st → ordered [] st → routed [] st →
  start_actors_from l st = inr st' → routed [] st'.
Proof.
  induction l as [|[a actor] l IH]; intros st st' Hl Hwf Ho Hrt; simpl;
    [by intros [= <-]|].
  destruct (start_actor_inv a actor st) as (st1 & Hs1 & Hwf1 & Ho1 & Hm1 & _);
    [apply Hl; by left|done..|].
  rewrite Hs1. apply IH; [|done..|].
  { intros a' Ha'. rewrite Hm1. apply Hl. by right. }
  rewrite start_actor_eq in Hs1. injection Hs1 as <-.
  apply routed_push. eapply user_step_routed; [apply exec_actions_user_step|].
  apply log_run_routed. by apply wire_routed.
Qed.

Lemma apply_op_routed o st st' :
  wf [] st → ordered [] st → routed [] st →
  apply_op o st = Some st' → routed [] st'.
Proof.
  intros Hwf Ho Hrt. destruct o as [a actor | | act |]; simpl.
  - intros [= <-]. by apply mount_routed.
  - unfold start, start_actors.
    destruct (start_actors_from_inv (actors st) (set_started true st))
      as (st1 & Hs & Hwf1 & Ho1 & _).
    { apply (wf_actors _ _ Hwf). }
    { by apply set_started_wf. }
    { by apply set_started_ordered. }
    change (actors (set_started true st)) with (actors st). rewrite Hs.
    rewrite start_system_eq. intros [= <-].
    apply routed_push, wire_routed; [done..|].
    eapply (start_actors_from_routed (actors st) (set_started true st));
      [apply (wf_actors _ _ Hwf) | by apply set_started_wf
      | by apply set_started_ordered | by apply set_started_routed | done].
  - intros [= <-]. eapply user_step_routed; [apply exec_action_user_step | done].
  - by apply tick_routed.
Qed.

Lemma reachable_routed st : reachable st → routed [] st.
Proof.
  intros (a0 & ops & Hrun).
  pose proof (System_new_routed a0) as Hrt.
  pose proof (System_new_wf a0 : wf [] (@System_new T a0)) as Hwf.
  pose proof (System_new_ordered a0 : ordered [] (@System_new T a0)) as Ho.
  revert Hrun Hrt Hwf Ho. generalize (@System_new T a0).
  induction ops as [|o ops IH]; intros s; simpl.
  - by intros [= <-].
  - intros Hrun Hs Hwf Ho.
    destruct (apply_op_inv o s Hwf Ho) as (s1 & H1 & Hwf1 & Ho1).
    rewrite H1 in Hrun. apply (IH s1 Hrun); [|done..].
    exact (apply_op_routed o s s1 Hwf Ho Hs H1).
Qed.

(** X10: in every state of a run, an envelope is only ever in the
    mailbox of the address its [to] names, and the callback of an
    addressed receiver is only ever called with envelopes whose [to] is
    the address the receiver is bound to. *)
Theorem envelopes_reach_their_address st :
  reachable st →
  (∀ a l m, mailbox a st = Some l → m ∈ l → to m = a) ∧
  (∀ rid m this, (rid, m) ∈ deliveries (trace st) →
     receivers st !! rid = Some this → to m = Receiver_address this).
Proof.
  intros [H1 _ _ H4]%reachable_routed. split; [|done].
  intros a l m. unfold mailbox.
  destruct (messages st !! a) as [arr|] eqn:Ha; [|done]. intros Hl Hm.
  apply (H1 a arr); [done|]. unfold content. by rewrite Hl.
Qed.

(** ** index.ts: the System comes to rest after stop *)

Lemma come_to_rest (L : nat) : ∀ (S : nat) st,
  wf [] st → ordered [] st → started st = false →
  length (omap loop_chan (timers st).*2) ≤ L → length (timers st) ≤ S →
  ∃ n st', run_ops (replicate n OTick) st = Some st' ∧
           timers st' = [] ∧ started st' = false.
Proof.
  induction L as [L IHL] using lt_wf_ind.
  intros S. induction S as [|S IHS]; intros st Hwf Ho Hst HL HS.
  - exists 0, st. destruct (timers st); [done | simpl in HS; lia].
  - destruct (timers st) as [|[ms t] rest] eqn:Ht; [by exists 0, st|].
    destruct (tick_inv st Hwf Ho) as (st1 & Htick & Hwf1 & Ho1).
    assert (Hst1 : started st1 = false).
    { destruct (tick_calm _ _ Htick) as [_ Hc].
      destruct (started st1); [|done]. rewrite Hc in Hst; done. }
    assert (Hstep : ∀ n st', run_ops (replicate n OTick) st1 = Some st' →
              run_ops (replicate (Datatypes.S n) OTick) st = Some st').
    { intros n st' Hn. simpl. by rewrite Htick. }
    simpl in HS.
    destruct t as [this dest v | a tx1 | arr tx1].
    + change (length (omap loop_chan rest.*2) ≤ L) in HL.
      assert (Htm : timers st1 = rest).
      { revert Htick. unfold tick. rewrite Ht. unfold fire.
        rewrite ChannelSender_send_router.
        2:{ apply (wf_submit _ _ Hwf ms this dest v). rewrite Ht. by left. }
        intros [= <-]. unfold router. simpl. by destruct (messages st !! dest). }
      destruct (IHS st1) as (n & st' & Hn & Ht' & Hs'); [done..| | |].
      { by rewrite Htm. } { rewrite Htm. lia. }
      exists (Datatypes.S n), st'. split; [by apply Hstep | done].
    + change (Datatypes.S (length (omap loop_chan rest.*2)) ≤ L) in HL.
      assert (Htm : timers st1 = rest).
      { revert Htick. unfold tick. rewrite Ht. unfold fire, loop_head. simpl.
        rewrite Hst. by destruct (messages st !! a); intros [= <-]. }
      destruct (IHL (L - 1) ltac:(lia) (length (timers st1)) st1)
        as (n & st' & Hn & Ht' & Hs'); [done..| |done|].
      { rewrite Htm. lia. }
      exists (Datatypes.S n), st'. split; [by apply Hstep | done].
    + change (Datatypes.S (length (omap loop_chan rest.*2)) ≤ L) in HL.
      destruct (tick_wake st ms arr tx1 rest Hwf Ht)
        as (rid & st2 & new & _ & Htick2 & _ & _ & Hnew & Htm & _).
      rewrite Htick in Htick2. injection Htick2 as <-.
      rewrite Hst1, app_nil_r in Htm.
      destruct (IHL (L - 1) ltac:(lia) (length (timers st1)) st1)
        as (n & st' & Hn & Ht' & Hs'); [done..| |done|].
      { rewrite Htm, fmap_app, omap_app, (omap_loop_chan_nil new.*2) by done.
        rewrite app_nil_r. lia. }
      exists (Datatypes.S n), st'. split; [by apply Hstep | done].
Qed.

(** X11: in every state of a run in which [started] is false, a finite
    number of turns of the host, with no other call, empties the queue
    of timers: every drain loop has run a last time and is gone, every
    pending send has reached the router, and [started] is still false;
    from then on a turn of the host changes nothing. *)
Theorem stop_brings_to_rest st :
  reachable st → started st = false →
  ∃ n st', run_ops (replicate n OTick) st = Some st' ∧
           timers st' = [] ∧ started st' = false ∧ tick st' = Some st'.
Proof.
  intros [Hwf Ho]%reachable_inv Hst.
  destruct (come_to_rest (length (omap loop_chan (timers st).*2))
              (length (timers st)) st) as (n & st' & Hn & Ht & Hs); [done..|].
  exists n, st'. do 3 (split; [done|]). unfold tick. by rewrite Ht.
Qed.

(** * start, mount and the order of delivery *)

(** ** start calls run for the entries of the registry *)

Lemma start_actors_from_runs (l : list (string * Actor T)) : ∀ st,
  ∃ st', start_actors_from l st = inr st' ∧ runs_each_once l st st'.
Proof.
  induction l as [|[a actor] l IH]; intros st; simpl; [by exists st|].
  rewrite start_actor_eq.
  set (tx1 := Channel.mkChannelSender (S (length (channels st)))).
  set (s := length (senders st)). set (r := length (receivers st)).
  destruct (IH (setTimeout (TLoopStart a tx1) 1
                  (exec_actions (run actor s r) (log (ERun a actor s r) (wire a st)))))
    as (st' & Hs & Hr).
  exists st'. split; [done|]. exists s, r, tx1.
  split; [by apply lookup_ge_None_2|]. split; [by apply lookup_ge_None_2|].
  split; [apply wire_bound|]. split; [|done].
  apply forwards_to_wire. by right.
Qed.

(** C7 (amended): [start()] returns; during the call, for each entry of
    the registry (an address with the actor last mounted at it), in the
    order of [actors.keys()]: a new Sender and a new Receiver are made and
    bound to the address, [run] of the actor of the entry is called with
    them, once, and the calls it makes are made; the log of the calls of
    [run] grows by exactly one call for each entry; after [start()] has
    returned, nothing but another [start()] calls [run]. *)
Theorem start_runs_each_entry_once st :
  ∃ st1 st' s r new,
    start st = inr (st', (s, r)) ∧
    start_actors (set_started true st) = inr st1 ∧
    runs_each_once (actors st) (set_started true st) st1 ∧
    st' = setTimeout (TLoopStart (address st)
                        (Channel.mkChannelSender (S (length (channels st1))))) 1
            (wire (address st) st1) ∧
    run_log (trace st') = run_log (trace st) ++ new ∧
    new.*1 = actors st ∧
    (∀ a actor s r, (a, actor, (s, r)) ∈ new → bound a s r st') ∧
    (∀ ops st'', Forall (λ o, is_start o = false) ops →
       run_ops ops st' = Some st'' →
       run_log (trace st'') = run_log (trace st')).
Proof.
  destruct (start_spec st) as (st' & s & r & new & Hs & Hrl & Hnew & Hb & _).
  destruct (start_actors_from_runs (actors st) (set_started true st))
    as (st1 & Hs1 & Hr1).
  exists st1, st', s, r, new. split; [done|]. split; [done|]. split; [done|].
  split.
  { revert Hs. unfold start, start_actors.
    change (actors (set_started true st)) with (actors st). rewrite Hs1.
    rewrite start_system_eq. intros [= <- _ _].
    destruct (start_actors_from_frame _ _ _ Hs1) as [(-> & _) _]. done. }
  do 3 (split; [done|]).
  intros ops st'' Hf Hrun. by apply (run_ops_calm ops st' st'' Hf Hrun).
Qed.

(** ** A cycle of a drain loop is a sequence of calls of the callback *)









(** ** What [start()] adds to the timers, the trace and the receivers *)




(** ** An array that [mount] has replaced *)




(** ** Regular runs: nothing is lost and nothing overtakes *)



















End Properties.

(** * The echo test and instances *)

(** spec/index.ts, "should complete echo responder test": the System
    gets ["echo-test"] back from "C", and all loops end after the
    [stop()] of the callback. *)
Example echo_responder :
  let st := Spec.state_of (Spec.echo ++ replicate 40 OTick) in
  delivered_to 3 (trace st) = [mkSystemMessage "C" "System" "echo-test"] ∧
  started st = false ∧ timers st = [].
Proof. vm_compute. done. Qed.

(** From [A] to [B]: 1, 2, 3 are sent, and the receiver of "B" (the
    receiver 1) observes 1, 2, 3. *)
Example one_two_three_in_order :
  value <$> sends (trace Spec.one_two_three) = ["1"; "2"; "3"] ∧
  value <$> delivered_to 1 (trace Spec.one_two_three) = ["1"; "2"; "3"].
Proof. vm_compute. done. Qed.

Lemma reachable_state_of (ops : list (Op string)) : reachable (Spec.state_of ops).
Proof.
  exists "System", ops. unfold Spec.state_of.
  destruct (run_ops_total ops "System") as [st ->]. done.
Qed.

(** C3 at the sender that [start()] returns in the echo test. *)
Lemma Sender_send_deferred_witness :
  senders Spec.started_system !! 3 =
    Some (mkSender "System" (Channel.mkChannelSender 6)) ∧
  timers (Sender_send 3 "A" "echo-test" Spec.started_system) =
    timers Spec.started_system ++
      [(1, TSubmit (mkSender "System" (Channel.mkChannelSender 6)) "A" "echo-test")].
Proof.
  assert (H : senders Spec.started_system !! 3 =
                Some (mkSender "System" (Channel.mkChannelSender 6))).
  { vm_compute. reflexivity. }
  split; [exact H|].
  apply (Sender_send_deferred Spec.started_system 3 _ "A" "echo-test" H).
Defined.

(** C4 after [start()] of the echo test: an envelope for "A", and one for
    "D", which was never mounted. *)
Lemma router_enqueue_or_drop_witness :
  reachable Spec.started_system ∧
  messages Spec.started_system !! "A" = Some 1 ∧
  messages Spec.started_system !! "D" = None ∧
  (∃ l, mailbox "A" Spec.started_system = Some l ∧
        mailbox "A" (router (mkSystemMessage "B" "A" "x") Spec.started_system)
          = Some (l ++ [mkSystemMessage "B" "A" "x"])) ∧
  router (mkSystemMessage "B" "D" "x") Spec.started_system = Spec.started_system.
Proof.
  assert (Hr : reachable Spec.started_system) by apply reachable_state_of.
  assert (HA : messages Spec.started_system !! "A" = Some 1) by (vm_compute; reflexivity).
  assert (HD : messages Spec.started_system !! "D" = None) by (vm_compute; reflexivity).
  split; [exact Hr|]. split; [exact HA|]. split; [exact HD|]. split.
  - destruct (router_enqueue_or_drop Spec.started_system
                (mkSystemMessage "B" "A" "x") Hr) as (_ & H & _).
    destruct (H 1 HA) as (l & H1 & H2 & _). exists l. split; [exact H1 | exact H2].
  - destruct (router_enqueue_or_drop Spec.started_system
                (mkSystemMessage "B" "D" "x") Hr) as (_ & _ & H).
    destruct (H HD) as [H1 _]. exact H1.
Defined.

(** C5 at the receiver that [start()] returns in the echo test: two
    calls of [on], and the second callback is the one that is called. *)
Lemma Receiver_on_overwrites_witness :
  let h1 : Handler string := λ from value, [AStop] in
  let h2 : Handler string := λ from value, [ASend 3 from value] in
  let m := mkSystemMessage "C" "System" "echo-test" in
  let st' := exec_actions [AOn 3 h1; AOn 3 h2] Spec.started_system in
  receivers Spec.started_system !! 3 = Some (mkReceiver "System" 7 (λ _ _, [])) ∧
  forwards_to 7 3 Spec.started_system ∧
  ChannelSender_send (Channel.mkChannelSender 7) m st' =
    exec_actions [ASend 3 "C" "echo-test"] (log (EDeliver 3 m) st').
Proof.
  intros h1 h2 m st'.
  assert (Hr : receivers Spec.started_system !! 3 = Some (mkReceiver "System" 7 (λ _ _, []))).
  { vm_compute. reflexivity. }
  assert (Hf : forwards_to (Channel.receiver (Channel.mkChannelSender 7)) 3
                 Spec.started_system).
  { eexists. split; [vm_compute; reflexivity | reflexivity]. }
  split; [exact Hr|]. split; [exact Hf|].
  apply (Receiver_on_overwrites Spec.started_system 3 (Channel.mkChannelSender 7)
           _ [h1] h2 m Hr Hf).
Defined.

(** C6 (amended) at the state of the echo test where the loop of "A" is
    about to drain the envelope of the System, after a [stop()]: the
    envelope for "A" is still delivered. *)
Lemma post_stop_grace_flush_witness :
  reachable (stop Spec.before_wake) ∧
  timers (stop Spec.before_wake) =
    (1, TLoopWake 1 (Channel.mkChannelSender 1)) ::
    [(1, TLoopWake 2 (Channel.mkChannelSender 3));
     (1, TLoopWake 3 (Channel.mkChannelSender 5));
     (1, TLoopWake 0 (Channel.mkChannelSender 7))] ∧
  ∃ rid st', tick (stop Spec.before_wake) = Some st' ∧
     deliveries (trace st') =
       deliveries (trace (stop Spec.before_wake)) ++
         ((λ m, (rid, m)) <$> content 1 (stop Spec.before_wake)) ∧
     content 1 st' = [].
Proof.
  assert (Hr : reachable (stop Spec.before_wake)).
  { apply (reachable_run_ops [OCall AStop] Spec.before_wake);
      [apply reachable_state_of | reflexivity]. }
  assert (Ht : timers (stop Spec.before_wake) =
    (1, TLoopWake 1 (Channel.mkChannelSender 1)) ::
    [(1, TLoopWake 2 (Channel.mkChannelSender 3));
     (1, TLoopWake 3 (Channel.mkChannelSender 5));
     (1, TLoopWake 0 (Channel.mkChannelSender 7))]) by (vm_compute; reflexivity).
  destruct (post_stop_grace_flush (stop Spec.before_wake) Hr) as [H1 _].
  split; [exact Hr|]. split; [exact Ht|].
  destruct (H1 _ _ _ _ Ht) as (rid & st' & _ & Htick & Hd & Hc & _).
  exists rid, st'. split; [exact Htick|]. split; [exact Hd | exact Hc].
Defined.

(** C6 as stated fails when [stop()] comes before the first test of a
    drain loop.  "S" sends to itself in [run]; [start()] and [stop()]
    are called in one turn; the timer of the send fires and the router
    puts the envelope in the mailbox of "S"; then the loop of "S" runs
    for the first time, finds [started] false and ends.  The envelope
    was in the mailbox before that test, which is the last of the loop;
    it is still there afterwards, and the receiver of the loop is never
    called. *)
Lemma stop_before_first_test_drops :
  let st := Spec.stopped_early in
  let m := mkSystemMessage "S" "S" "hello" in
  let rest := [(1, @TLoopStart string "System" (Channel.mkChannelSender 3))] in
  reachable st ∧
  mailbox "S" st = Some [m] ∧
  started st = false ∧
  timers st = (1, TLoopStart "S" (Channel.mkChannelSender 1)) :: rest ∧
  forwards_to 1 0 st ∧
  tick st = Some (set_timers rest st) ∧
  mailbox "S" (set_timers rest st) = Some [m] ∧
  no_loop 1 (set_timers rest st) ∧
  deliveries (trace (set_timers rest st)) = [] ∧
  ∀ ops st', run_ops ops (set_timers rest st) = Some st' →
             delivered_to 0 (trace st') = [].
Proof.
  intros st m rest. set (st1 := set_timers rest st).
  assert (Hr : reachable st) by apply reachable_state_of.
  assert (Hm : mailbox "S" st = Some [m]) by (vm_compute; reflexivity).
  assert (Hst : started st = false) by (vm_compute; reflexivity).
  assert (Ht : timers st = (1, TLoopStart "S" (Channel.mkChannelSender 1)) :: rest)
    by (vm_compute; reflexivity).
  assert (Hf : forwards_to 1 0 st).
  { eexists. split; [vm_compute; reflexivity | reflexivity]. }
  assert (Htick : tick st = Some st1) by (vm_compute; reflexivity).
  assert (Hm1 : mailbox "S" st1 = Some [m]) by (vm_compute; reflexivity).
  assert (Hf1 : forwards_to 1 0 st1).
  { eexists. split; [vm_compute; reflexivity | reflexivity]. }
  assert (Hd : deliveries (trace st1) = []) by (vm_compute; reflexivity).
  assert (Hno : no_loop 1 st1).
  { intros t Hin. apply list_elem_of_singleton in Hin. rewrite Hin. discriminate. }
  clearbody st1. clearbody st.
  do 5 (split; [assumption|]). split; [exact Htick|]. split; [exact Hm1|].
  split; [exact Hno|]. split; [exact Hd|].
  intros ops st' Hrun.
  assert (reachable st1) as [Hwf Ho]%reachable_inv.
  { apply (reachable_run_ops [OTick] st); [exact Hr|]. exact (run_ops_tick _ _ Htick). }
  rewrite (run_ops_no_loop ops st1 st' 1 0 Hwf Ho Hf1 Hno Hrun).
  rewrite delivered_to_deliveries. by rewrite Hd.
Qed.

(** C8 as stated fails: on one System, [start()], [stop()], [start()]
    takes [started] from [true] to [false] and to [true] again. *)
Lemma started_true_again :
  ∃ st1 st2 st3 : State string,
    apply_op OStart (System_new "system") = Some st1 ∧ started st1 = true ∧
    apply_op (OCall AStop) st1 = Some st2 ∧ started st2 = false ∧
    apply_op OStart st2 = Some st3 ∧ started st3 = true.
Proof.
  eexists _, _, _. split; [vm_compute; reflexivity|]. split; [reflexivity|].
  split; [vm_compute; reflexivity|]. split; [reflexivity|].
  split; [vm_compute; reflexivity|]. reflexivity.
Qed.

(** C8 (amended): a [start()] with the actor "A", and a stopped System
    on which a send and two turns of the host leave [started] false. *)
Lemma started_lifecycle_witness :
  (∃ st' pair, start (mount "A" Spec.A (System_new "System")) = inr (st', pair) ∧
               started st' = true) ∧
  (∃ st', run_ops [OCall (ASend 3 "A" "again"); OTick; OTick]
            (stop Spec.started_system) = Some st' ∧
          started st' = false).
Proof.
  destruct (@started_lifecycle string) as (_ & H1 & _ & H2). split.
  - apply H1. intros a actor s r Hin. simpl in Hin.
    apply list_elem_of_singleton in Hin. injection Hin as -> ->. simpl.
    intros Hs%list_elem_of_singleton. discriminate Hs.
  - destruct (run_ops [OCall (ASend 3 "A" "again"); OTick; OTick]
                (stop Spec.started_system)) as [st'|] eqn:Hrun.
    + exists st'. split; [reflexivity|].
      assert (Hf : Forall (λ o : Op string, is_start o = false)
                     [OCall (ASend 3 "A" "again"); OTick; OTick])
        by (repeat constructor).
      exact (H2 _ (stop Spec.started_system) st' Hf Hrun eq_refl).
    + vm_compute in Hrun. discriminate Hrun.
Defined.

(** * Instances of the further properties *)

(** X4 at the state of the echo test after [start()]. *)
Lemma every_address_has_mailbox_witness :
  reachable Spec.started_system ∧
  is_Some (mailbox (address Spec.started_system) Spec.started_system).
Proof.
  assert (Hr : reachable Spec.started_system) by apply reachable_state_of.
  split; [exact Hr|].
  destruct (every_address_has_mailbox Spec.started_system Hr) as [H _]. exact H.
Defined.

(** X5: a second [mount] at "B" in the echo test. *)
Lemma mount_last_wins_witness :
  reachable Spec.started_system ∧
  (actors (mount "B" Spec.C Spec.started_system)).*1 =
    (actors Spec.started_system).*1 ∧
  (∀ actor', ("B", actor') ∈ actors (mount "B" Spec.C Spec.started_system) ↔
             actor' = Spec.C).
Proof.
  assert (Hr : reachable Spec.started_system) by apply reachable_state_of.
  assert (Hin : "B" ∈ (actors Spec.started_system).*1).
  { vm_compute. right. left. }
  destruct (mount_last_wins Spec.started_system "B" Spec.C Hr)
    as (_ & _ & H1 & _ & H2 & _).
  split; [exact Hr|]. split; [exact (H2 Hin) | exact H1].
Defined.

(** X6 at the state of the echo test where the send of the System to "A"
    is the next timer. *)
Lemma send_timer_turn_witness :
  let rest : list (nat * Task string) :=
    [(1, TLoopWake 1 (Channel.mkChannelSender 1));
     (1, TLoopWake 2 (Channel.mkChannelSender 3));
     (1, TLoopWake 3 (Channel.mkChannelSender 5));
     (1, TLoopWake 0 (Channel.mkChannelSender 7))] in
  let this := mkSender "System" (Channel.mkChannelSender 6) in
  reachable Spec.before_submit ∧
  timers Spec.before_submit = (1, TSubmit this "A" "echo-test") :: rest ∧
  tick Spec.before_submit =
    Some (router (mkSystemMessage "System" "A" "echo-test")
            (set_timers rest Spec.before_submit)).
Proof.
  intros rest this.
  assert (Hr : reachable Spec.before_submit) by apply reachable_state_of.
  assert (Ht : timers Spec.before_submit = (1, TSubmit this "A" "echo-test") :: rest)
    by (vm_compute; reflexivity).
  destruct (send_timer_turn Spec.before_submit 1 this "A" "echo-test" rest Hr Ht)
    as (_ & H & _).
  split; [exact Hr|]. split; [exact Ht | exact H].
Defined.

(** X7 at the end of the run of 1, 2, 3. *)
Lemma receiver_sees_global_order_witness :
  reachable Spec.one_two_three ∧
  delivered_to 1 (trace Spec.one_two_three) `sublist_of` sends (trace Spec.one_two_three).
Proof.
  assert (Hr : reachable Spec.one_two_three) by apply reachable_state_of.
  split; [exact Hr|]. exact (receiver_sees_global_order Spec.one_two_three 1 Hr).
Defined.

(** X8 at the state of the echo test where an envelope waits in an array. *)
Lemma no_envelope_twice_witness :
  reachable Spec.before_wake ∧
  (deliveries (trace Spec.before_wake)).*2 ++ concat (arrays Spec.before_wake) ++
    submits (timers Spec.before_wake) ⊆+ sends (trace Spec.before_wake).
Proof.
  assert (Hr : reachable Spec.before_wake) by apply reachable_state_of.
  split; [exact Hr|]. exact (no_envelope_twice Spec.before_wake Hr).
Defined.

(** X9 at the end of the run of 1, 2, 3: "A", the [from] of what "B"
    received, has a mailbox. *)
Lemma from_has_mailbox_witness :
  reachable Spec.one_two_three ∧
  mkSystemMessage "A" "B" "1" ∈ delivered_to 1 (trace Spec.one_two_three) ∧
  ∃ l, mailbox "A" Spec.one_two_three = Some l.
Proof.
  assert (Hr : reachable Spec.one_two_three) by apply reachable_state_of.
  assert (Hin : mkSystemMessage "A" "B" "1" ∈ delivered_to 1 (trace Spec.one_two_three)).
  { vm_compute. left. }
  destruct (from_has_mailbox Spec.one_two_three Hr) as [_ H].
  destruct (H 1 _ Hin) as (l & Hl & _).
  split; [exact Hr|]. split; [exact Hin|]. exists l. exact Hl.
Defined.

(** X10 at the end of the run of 1, 2, 3: what the receiver of "B" got
    was for "B". *)
Lemma envelopes_reach_their_address_witness :
  reachable Spec.one_two_three ∧
  (1, mkSystemMessage "A" "B" "2") ∈ deliveries (trace Spec.one_two_three) ∧
  receivers Spec.one_two_three !! 1 = Some (mkReceiver "B" 3 (λ _ _, [])) ∧
  to (mkSystemMessage "A" "B" "2") = "B".
Proof.
  assert (Hr : reachable Spec.one_two_three) by apply reachable_state_of.
  assert (Hin : (1, mkSystemMessage "A" "B" "2") ∈ deliveries (trace Spec.one_two_three)).
  { vm_compute. right. left. }
  assert (Hrc : receivers Spec.one_two_three !! 1 = Some (mkReceiver "B" 3 (λ _ _, [])))
    by (vm_compute; reflexivity).
  destruct (envelopes_reach_their_address Spec.one_two_three Hr) as [_ H].
  split; [exact Hr|]. split; [exact Hin|]. split; [exact Hrc|].
  exact (H 1 _ _ Hin Hrc).
Defined.

(** X11 at the state of the echo test with an envelope in the mailbox
    of "A", after a [stop()]. *)
Lemma stop_brings_to_rest_witness :
  reachable (stop Spec.before_wake) ∧
  started (stop Spec.before_wake) = false ∧
  ∃ n st', run_ops (replicate n OTick) (stop Spec.before_wake) = Some st' ∧
           timers st' = [].
Proof.
  assert (Hr : reachable (stop Spec.before_wake)).
  { apply (reachable_run_ops [OCall AStop] Spec.before_wake);
      [apply reachable_state_of | reflexivity]. }
  destruct (stop_brings_to_rest (stop Spec.before_wake) Hr eq_refl)
    as (n & st' & Hn & Ht & _).
  split; [exact Hr|]. split; [reflexivity|]. exists n, st'.
  split; [exact Hn | exact Ht].
Defined.

(** X12 at the state of the echo test where the loop of "A" is the next
    timer. *)
Lemma loop_keeps_polling_witness :
  reachable Spec.before_wake ∧
  timers Spec.before_wake =
    (1, TLoopWake 1 (Channel.mkChannelSender 1)) ::
    [(1, TLoopWake 2 (Channel.mkChannelSender 3));
     (1, TLoopWake 3 (Channel.mkChannelSender 5));
     (1, TLoopWake 0 (Channel.mkChannelSender 7))] ∧
  ∃ st', tick Spec.before_wake = Some st' ∧
         (started st' = true →
          last (timers st') = Some (1, TLoopWake 1 (Channel.mkChannelSender 1))).
Proof.
  assert (Hr : reachable Spec.before_wake) by apply reachable_state_of.
  assert (Ht : timers Spec.before_wake =
    (1, TLoopWake 1 (Channel.mkChannelSender 1)) ::
    [(1, TLoopWake 2 (Channel.mkChannelSender 3));
     (1, TLoopWake 3 (Channel.mkChannelSender 5));
     (1, TLoopWake 0 (Channel.mkChannelSender 7))]) by (vm_compute; reflexivity).
  destruct (loop_keeps_polling Spec.before_wake _ _ _ _ Hr Ht) as (st' & H1 & H2 & _).
  split; [exact Hr|]. split; [exact Ht|]. exists st'. split; [exact H1 | exact H2].
Defined.

(** * mount, start and the order of delivery at instances *)



(** C7 as stated fails for an actor that is not the last one mounted at
    its address, and for an actor mounted at two addresses.
    [mount("B", Counter)], [mount("B", Sink)], [start()]: [run] of Sink is
    the only call, and nothing is sent, so [run] of Counter, which sends
    three envelopes, was not called.  [mount("X", Counter)],
    [mount("Y", Counter)], [start()]: [run] of Counter is called twice,
    and its three envelopes are sent twice. *)
Lemma replaced_actor_is_not_run :
  run_log (trace Spec.replaced) = [("B", Spec.Sink, (0, 0))] ∧
  sends (trace Spec.replaced) = [] ∧
  submits (timers Spec.replaced) = [] ∧
  run_log (trace Spec.twice) =
    [("X", Spec.Counter, (0, 0)); ("Y", Spec.Counter, (1, 1))] ∧
  value <$> sends (trace Spec.twice) = ["1"; "2"; "3"; "1"; "2"; "3"].
Proof.
  split; [vm_compute; reflexivity|]. split; [vm_compute; reflexivity|].
  split; [vm_compute; reflexivity|]. split; vm_compute; reflexivity.
Qed.

(** C7 (amended) at a System with "A" and "B" of the echo test mounted:
    [run] of each is called with the Sender and the Receiver of its
    address, and the callbacks that the two [run] register are those of
    the receivers 0 and 1 when [start()] returns; a turn of the host
    calls no [run]. *)
Lemma start_runs_each_entry_once_witness :
  let st := Spec.state_of [OMount "A" Spec.A; OMount "B" Spec.B] in
  ∃ st1 st' s r,
    start st = inr (st', (s, r)) ∧
    runs_each_once [("A", Spec.A); ("B", Spec.B)] (set_started true st) st1 ∧
    run_log (trace st') = [("A", Spec.A, (0, 0)); ("B", Spec.B, (1, 1))] ∧
    bound "A" 0 0 st' ∧ bound "B" 1 1 st' ∧
    (∀ st'', run_ops [OTick] st' = Some st'' →
             run_log (trace st'') = run_log (trace st')).
Proof.
  intros st.
  assert (Ha : actors st = [("A", Spec.A); ("B", Spec.B)])
    by (vm_compute; reflexivity).
  assert (H0 : run_log (trace st) = []) by (vm_compute; reflexivity).
  assert (Hl : ∀ st' pair, start st = inr (st', pair) →
            run_log (trace st') = [("A", Spec.A, (0, 0)); ("B", Spec.B, (1, 1))]).
  { intros st' pair. vm_compute. intros [= <- _]. reflexivity. }
  clearbody st.
  destruct (start_runs_each_entry_once st)
    as (st1 & st' & s & r & new & Hs & _ & Hr & _ & Hrl & _ & Hb & Hcalm).
  exists st1, st', s, r. split; [exact Hs|]. split; [by rewrite <- Ha|].
  split; [exact (Hl st' (s, r) Hs)|].
  rewrite H0, (Hl st' (s, r) Hs) in Hrl. simpl in Hrl. subst new.
  split; [apply (Hb "A" Spec.A 0 0); by left|].
  split; [apply (Hb "B" Spec.B 1 1); right; by left|].
  intros st'' Hrun.
  exact (Hcalm [OTick] st'' ltac:(repeat constructor) Hrun).
Defined.


